(** * ParserTask: the leaflet scraper of [main.py]

    A shallow embedding of [main.py] (classes [LeafletCollection],
    [Leaflet] and [LeafletScraper]) and the properties of its date-range
    parser, its aggregate and its orchestration loop.

    Python values are modelled as follows.
    - [str]: the sequence of its Unicode code points, [list N].
    - [None] or a [str]: [pyval].
    - [dict]: an insertion-ordered association list with unique keys.
    - [re]: a backtracking matcher over the constructs the pattern uses.
    - exceptions: the [inl] side of a sum, threaded with the outside world
      (the web server and the wall clock) through a state monad. *)

From Stdlib Require Import String Ascii.
From Stdlib Require Import List NArith Arith Bool Lia.
Import ListNotations.

Set Implicit Arguments.

(** ** Python strings *)

Definition char := N.
Definition str := list char.

(** A literal of the source, as a [str]. *)
Definition py (s : string) : str := map N_of_ascii (list_ascii_of_string s).

Definition str_eq_dec : forall a b : str, {a = b} + {a <> b} :=
  list_eq_dec N.eq_dec.

Inductive pyval :=
| PyNone
| PyStr (s : str).

(** ** Character classes of [re] on [str] patterns *)

Definition in_range (c : char) (r : N * N) : bool :=
  (fst r <=? c)%N && (c <=? snd r)%N.

(** [\d] on a [str] pattern: the decimal digits (category Nd) of the
    interpreter's Unicode database, here Unicode 14.0 (CPython 3.11). *)
Definition unicode_Nd : list (N * N) :=
  [ (0x30, 0x39); (0x660, 0x669); (0x6F0, 0x6F9); (0x7C0, 0x7C9);
    (0x966, 0x96F); (0x9E6, 0x9EF); (0xA66, 0xA6F); (0xAE6, 0xAEF);
    (0xB66, 0xB6F); (0xBE6, 0xBEF); (0xC66, 0xC6F); (0xCE6, 0xCEF);
    (0xD66, 0xD6F); (0xDE6, 0xDEF); (0xE50, 0xE59); (0xED0, 0xED9);
    (0xF20, 0xF29); (0x1040, 0x1049); (0x1090, 0x1099); (0x17E0, 0x17E9);
    (0x1810, 0x1819); (0x1946, 0x194F); (0x19D0, 0x19D9); (0x1A80, 0x1A89);
    (0x1A90, 0x1A99); (0x1B50, 0x1B59); (0x1BB0, 0x1BB9); (0x1C40, 0x1C49);
    (0x1C50, 0x1C59); (0xA620, 0xA629); (0xA8D0, 0xA8D9); (0xA900, 0xA909);
    (0xA9D0, 0xA9D9); (0xA9F0, 0xA9F9); (0xAA50, 0xAA59); (0xABF0, 0xABF9);
    (0xFF10, 0xFF19); (0x104A0, 0x104A9); (0x10D30, 0x10D39);
    (0x11066, 0x1106F); (0x110F0, 0x110F9); (0x11136, 0x1113F);
    (0x111D0, 0x111D9); (0x112F0, 0x112F9); (0x11450, 0x11459);
    (0x114D0, 0x114D9); (0x11650, 0x11659); (0x116C0, 0x116C9);
    (0x11730, 0x11739); (0x118E0, 0x118E9); (0x11950, 0x11959);
    (0x11C50, 0x11C59); (0x11D50, 0x11D59); (0x11DA0, 0x11DA9);
    (0x16A60, 0x16A69); (0x16AC0, 0x16AC9); (0x16B50, 0x16B59);
    (0x1D7CE, 0x1D7FF); (0x1E140, 0x1E149); (0x1E2F0, 0x1E2F9);
    (0x1E950, 0x1E959); (0x1FBF0, 0x1FBF9) ]%N.

(** [\s] on a [str] pattern, and the characters [str.strip()] removes. *)
Definition unicode_whitespace : list (N * N) :=
  [ (0x9, 0xD); (0x1C, 0x20); (0x85, 0x85); (0xA0, 0xA0); (0x1680, 0x1680);
    (0x2000, 0x200A); (0x2028, 0x2029); (0x202F, 0x202F); (0x205F, 0x205F);
    (0x3000, 0x3000) ]%N.

Definition is_digit (c : char) : bool := existsb (in_range c) unicode_Nd.
Definition is_space (c : char) : bool := existsb (in_range c) unicode_whitespace.

Arguments is_digit : simpl never.
Arguments is_space : simpl never.

(** [str.strip()] *)
Fixpoint lstrip (s : str) : str :=
  match s with
  | c :: s' => if is_space c then lstrip s' else s
  | [] => []
  end.

Definition strip (s : str) : str := rev (lstrip (rev (lstrip s))).

(** ** The fragment of [re] the date pattern is written in *)

Module Re.

Inductive cls :=
| Digit                (* \d *)
| Space                (* \s *)
| Lit (c : char).      (* a literal character *)

Definition cls_match (k : cls) (c : char) : bool :=
  match k with
  | Digit => is_digit c
  | Space => is_space c
  | Lit a => N.eqb a c
  end.

Inductive regex :=
| Chr (k : cls)                (* one character of a class *)
| Cat (r1 r2 : regex)          (* r1 r2 *)
| Opt (r : regex)              (* r?  (greedy) *)
| Rep (n : nat) (r : regex)    (* r{n} *)
| Star (k : cls)               (* k*  (greedy) *)
| Grp (i : nat) (r : regex).   (* capturing group number i *)

(** The groups captured so far, the latest first. *)
Definition caps := list (nat * str).

Fixpoint group (c : caps) (i : nat) : pyval :=
  match c with
  | (j, s) :: c' => if Nat.eqb i j then PyStr s else group c' i
  | [] => PyNone
  end.

(** What is left to match: called on the rest of the text. *)
Definition cont := str -> caps -> option caps.

Fixpoint star_cls (k : cls) (t : str) (c : caps) (kont : cont) : option caps :=
  match t with
  | x :: t' =>
      if cls_match k x then
        match star_cls k t' c kont with
        | Some res => Some res
        | None => kont t c
        end
      else kont t c
  | [] => kont t c
  end.

(** The backtracking matcher: [r] against a prefix of [t], then [kont]
    on the rest; the first alternative that lets [kont] succeed wins. *)
Fixpoint matcher (r : regex) (t : str) (c : caps) (kont : cont) {struct r}
  : option caps :=
  match r with
  | Chr k =>
      match t with
      | x :: t' => if cls_match k x then kont t' c else None
      | [] => None
      end
  | Cat r1 r2 => matcher r1 t c (fun t' c' => matcher r2 t' c' kont)
  | Opt r1 =>
      match matcher r1 t c kont with
      | Some res => Some res
      | None => kont t c
      end
  | Rep n r1 =>
      (fix rep (n : nat) (t : str) (c : caps) : option caps :=
         match n with
         | O => kont t c
         | S n' => matcher r1 t c (fun t' c' => rep n' t' c')
         end) n t c
  | Star k => star_cls k t c kont
  | Grp i r1 =>
      matcher r1 t c
        (fun t' c' => kont t' ((i, firstn (length t - length t') t) :: c'))
  end.

(** [pattern.match(t)]: a match beginning at the first character of [t]. *)
Definition match_at (r : regex) (t : str) : option caps :=
  matcher r t [] (fun _ c => Some c).

(** [pattern.search(t)]: the match at the first position that has one. *)
Fixpoint search (r : regex) (t : str) : option caps :=
  match match_at r t with
  | Some c => Some c
  | None =>
      match t with
      | _ :: t' => search r t'
      | [] => None
      end
  end.

(** What it means for [r] to match exactly the string [s], taking the
    captures from [c] to [c']. *)
Inductive sem : regex -> str -> caps -> caps -> Prop :=
| sem_chr k x c : cls_match k x = true -> sem (Chr k) [x] c c
| sem_cat r1 r2 s1 s2 c0 c1 c2 :
    sem r1 s1 c0 c1 -> sem r2 s2 c1 c2 -> sem (Cat r1 r2) (s1 ++ s2) c0 c2
| sem_opt_some r s c c' : sem r s c c' -> sem (Opt r) s c c'
| sem_opt_none r c : sem (Opt r) [] c c
| sem_rep_O r c : sem (Rep 0 r) [] c c
| sem_rep_S r n s1 s2 c0 c1 c2 :
    sem r s1 c0 c1 -> sem (Rep n r) s2 c1 c2 ->
    sem (Rep (S n) r) (s1 ++ s2) c0 c2
| sem_star k s c : forallb (cls_match k) s = true -> sem (Star k) s c c
| sem_grp i r s c c' : sem r s c c' -> sem (Grp i r) s c ((i, s) :: c').

End Re.

Import Re.

Declare Scope re_scope.
Delimit Scope re_scope with re.
Notation "r1 ;; r2" := (Cat r1 r2) (at level 61, right associativity) : re_scope.

(** ** [LeafletScraper.__parser_date] *)

Definition dot : char := 46%N.
Definition hyphen : char := 45%N.

Definition start_re : regex :=      (* \d{2}\.\d{2}\.?(?:\d{4})? *)
  (Rep 2 (Chr Digit) ;; Chr (Lit dot) ;; Rep 2 (Chr Digit) ;;
   Opt (Chr (Lit dot)) ;; Opt (Rep 4 (Chr Digit)))%re.

Definition end_re : regex :=        (* \d{2}\.\d{2}\.\d{4} *)
  (Rep 2 (Chr Digit) ;; Chr (Lit dot) ;; Rep 2 (Chr Digit) ;;
   Chr (Lit dot) ;; Rep 4 (Chr Digit))%re.

(** [(\d{2}\.\d{2}\.?(?:\d{4})?)\s*-\s*(\d{2}\.\d{2}\.\d{4})] *)
Definition pattern : regex :=
  (Grp 1 start_re ;; Star Space ;; Chr (Lit hyphen) ;; Star Space ;;
   Grp 2 end_re)%re.

Definition parser_date (dates : str) : pyval * pyval :=
  match search pattern dates with
  | None => (PyStr [], PyStr [])
  | Some mt => (group mt 1, group mt 2)   (* start, end = match.groups() *)
  end.

(** *** The shapes of the two tokens *)

(** [DD.DD] *)
Definition is_dd_dd (s : str) : bool :=
  match s with
  | [a; b; p; c; d] =>
      is_digit a && is_digit b && (p =? dot)%N && is_digit c && is_digit d
  | _ => false
  end.

(** [YYYY] *)
Definition is_yyyy (s : str) : bool :=
  match s with
  | [a; b; c; d] => is_digit a && is_digit b && is_digit c && is_digit d
  | _ => false
  end.

(** [DD.DD.YYYY] *)
Definition is_dd_dd_yyyy (s : str) : bool :=
  is_dd_dd (firstn 5 s) &&
  match skipn 5 s with
  | p :: y => (p =? dot)%N && is_yyyy y
  | [] => false
  end.

(** The end token: [DD.DD.YYYY]. *)
Definition end_token (s : str) : bool := is_dd_dd_yyyy s.

(** The start token in the words of the specification:
    [DD.DD] optionally followed by [.YYYY]. *)
Definition spec_start_token (s : str) : bool := is_dd_dd s || is_dd_dd_yyyy s.

(** The start token of [pattern]: [DD.DD], then an optional dot, then an
    optional [YYYY]. *)
Definition start_token (s : str) : bool :=
  is_dd_dd (firstn 5 s) &&
  (let tl := skipn 5 s in
   let tl' := match tl with
              | p :: y => if (p =? dot)%N then y else tl
              | [] => tl
              end in
   match tl' with
   | [] => true
   | _ => is_yyyy tl'
   end).

Definition spaces (s : str) : bool := forallb is_space s.

(** A date range begins at the first character of [t]: the start token [s],
    a hyphen with optional whitespace around it, the end token [e]. *)
Definition range_at (s e t : str) : Prop :=
  exists ws1 ws2 rest,
    t = s ++ ws1 ++ [hyphen] ++ ws2 ++ e ++ rest /\
    start_token s = true /\ spaces ws1 = true /\ spaces ws2 = true /\
    end_token e = true.

(** A date range begins at position [p] of [text]. *)
Definition occurs_at (text : str) (p : nat) (s e : str) : Prop :=
  p <= length text /\ range_at s e (skipn p text).

(** No date range begins before position [p]. *)
Definition none_before (text : str) (p : nat) : Prop :=
  forall q s e, q < p -> ~ occurs_at text q s e.

(** The characters of a token: digits and dots. *)
Definition tok (x : char) : bool := is_digit x || (x =? dot)%N.

(** ** Exceptions *)

Inductive exn :=
| TypeError          (* subscripting [None] *)
| AttributeError     (* an attribute of [None] *)
| KeyError           (* a missing dict key or tag attribute *)
| RequestException.  (* raised by [requests] *)

Definition result (A : Type) : Type := exn + A.

Definition rbind {A B} (m : result A) (f : A -> result B) : result B :=
  match m with
  | inl e => inl e
  | inr a => f a
  end.

(** ** Python dicts: insertion-ordered, keyed by [str] *)

Section Dict.
Variable V : Type.

Definition dict := list (str * V).

Fixpoint dict_get (d : dict) (k : str) : option V :=
  match d with
  | (k', v) :: d' => if str_eq_dec k k' then Some v else dict_get d' k
  | [] => None
  end.

(** [k in d] *)
Definition dict_contains (d : dict) (k : str) : bool :=
  match dict_get d k with
  | Some _ => true
  | None => false
  end.

(** [d[k]] *)
Definition dict_getitem (d : dict) (k : str) : result V :=
  match dict_get d k with
  | Some v => inr v
  | None => inl KeyError
  end.

(** [d[k] = v]: a present key keeps its place, a new one goes last. *)
Fixpoint dict_set (d : dict) (k : str) (v : V) : dict :=
  match d with
  | (k', v') :: d' =>
      if str_eq_dec k k' then (k', v) :: d' else (k', v') :: dict_set d' k v
  | [] => [(k, v)]
  end.

Definition dict_keys (d : dict) : list str := map fst d.

(** The invariant of a dict: no key twice. *)
Definition dict_wf (d : dict) : Prop := NoDup (dict_keys d).
End Dict.

(** ** [Leaflet] *)

Record Leaflet := {
  title : str;
  thumbnail : str;
  shop_name : str;
  valid_from : pyval;
  valid_to : pyval;
  parsed_time : str
}.

Definition to_dict (self : Leaflet) : dict pyval :=
  [ (py "title", PyStr (title self));
    (py "thumbnail", PyStr (thumbnail self));
    (py "shop_name", PyStr (shop_name self));
    (py "valid_from", valid_from self);
    (py "valid_to", valid_to self);
    (py "parsed_time", PyStr (parsed_time self)) ].

(** ** [LeafletCollection] *)

Record LeafletCollection := { collection : dict (list Leaflet) }.

(** [LeafletCollection()] *)
Definition new_collection : LeafletCollection := {| collection := [] |}.

Definition append (self : LeafletCollection) (key : str) (data : list Leaflet)
  : result LeafletCollection :=
  let c := collection self in
  let c1 := if dict_contains c key then c else dict_set c key [] in
  rbind (dict_getitem c1 key) (fun l =>         (* self.collection[key] *)
  inr {| collection := dict_set c1 key (l ++ data) |}).   (* .extend(data) *)

(** The turns of the inner loop of [__serialize]:
    [serializable[hypermarket_name].append(leaflet.to_dict())]. *)
Fixpoint serialize_leaflets (hypermarket_name : str) (leaflets : list Leaflet)
    (serializable : dict (list (dict pyval)))
  : result (dict (list (dict pyval))) :=
  match leaflets with
  | [] => inr serializable
  | leaflet :: rest =>
      rbind (dict_getitem serializable hypermarket_name) (fun l =>
      serialize_leaflets hypermarket_name rest
        (dict_set serializable hypermarket_name (l ++ [to_dict leaflet])))
  end.

(** The turns of its outer loop, over [self.collection.items()]. *)
Fixpoint serialize_items (items : list (str * list Leaflet))
    (serializable : dict (list (dict pyval)))
  : result (dict (list (dict pyval))) :=
  match items with
  | [] => inr serializable
  | (hypermarket_name, leaflets) :: rest =>
      rbind (serialize_leaflets hypermarket_name leaflets
               (dict_set serializable hypermarket_name []))
            (serialize_items rest)
  end.

Definition serialize (self : LeafletCollection)
  : result (dict (list (dict pyval))) :=
  serialize_items (collection self) [].

(** The entry of [serialize()] for an entry of the collection. *)
Definition serialize_item (item : str * list Leaflet)
  : str * list (dict pyval) :=
  (fst item, map to_dict (snd item)).

(** ** The outside world: the web and the wall clock *)

(** A parsed document or one of its elements, as BeautifulSoup hands it
    out: its text, its attributes, and what [select] finds below it for a
    CSS selector, in document order. *)
#[warnings="-register-all"]
Inductive Element :=
| Tag (text : str) (attrs : dict str) (select : str -> list Element).

Definition text (e : Element) : str := let (t, _, _) := e in t.
Definition attrs (e : Element) : dict str := let (_, a, _) := e in a.
Definition select (e : Element) (selector : str) : list Element :=
  let (_, _, f) := e in f selector.

(** [e.select_one(selector)]: the first match, or [None]. *)
Definition select_one (e : Element) (selector : str) : option Element :=
  hd_error (select e selector).

(** [e.get(name)] *)
Definition tag_get (e : Element) (name : str) : pyval :=
  match dict_get (attrs e) name with
  | Some v => PyStr v
  | None => PyNone
  end.

(** The web answers the [n]-th request of the run, for a URL, with a document
    or with an exception of [requests]; the clock gives the formatted time
    at its [n]-th reading. The two counters are the state of a run. *)
Record World := {
  web : nat -> str -> result Element;
  wall_clock : nat -> str;
  requests : nat;
  clock_reads : nat
}.

Definition M (A : Type) : Type := World -> result (A * World).

Definition ret {A} (a : A) : M A := fun w => inr (a, w).
Definition raise {A} (e : exn) : M A := fun _ => inl e.
Definition bind {A B} (m : M A) (f : A -> M B) : M B :=
  fun w => match m w with
           | inl e => inl e
           | inr (a, w') => f a w'
           end.
Definition lift {A} (r : result A) : M A :=
  match r with
  | inl e => raise e
  | inr a => ret a
  end.

Notation "'let*' x ':=' m 'in' k" := (bind m (fun x => k))
  (at level 10, x pattern, m at level 100, k at level 200).

(** [BeautifulSoup(self.http_client.get(url).content, 'html.parser')] *)
Definition http_get (url : str) : M Element :=
  fun w =>
    let w' := {| web := web w; wall_clock := wall_clock w;
                 requests := S (requests w); clock_reads := clock_reads w |} in
    match web w (requests w) url with
    | inl e => inl e
    | inr page => inr (page, w')
    end.

(** [datetime.now().strftime("%Y-%m-%d %H:%M:%S")] *)
Definition now : M str :=
  fun w =>
    inr (wall_clock w (clock_reads w),
         {| web := web w; wall_clock := wall_clock w;
            requests := requests w; clock_reads := S (clock_reads w) |}).

(** [Leaflet(title, thumbnail, shop_name, valid_from, valid_to)] *)
Definition Leaflet_init (title thumbnail shop_name : str)
    (valid_from valid_to : pyval) : M Leaflet :=
  let* t := now in
  ret {| title := title; thumbnail := thumbnail; shop_name := shop_name;
         valid_from := valid_from; valid_to := valid_to; parsed_time := t |}.

(** ** [LeafletScraper] *)

Definition HYPERMARKET_LINK_SELECTOR : str := py "#left-category-shops > li > a".
Definition LEAFLET_ELEMENT_SELECTOR : str := py ".page-body div.brochure-thumb".
Definition THUMBNAIL_SELECTOR : str := py "picture img".   (* not used *)
Definition DATE_SELECTOR : str :=
  py ".letak-description p:has(small) > small.hidden-sm".
Definition base_url : str := py "https://www.prospektmaschine.de".

(** A value inside an f-string. *)
Definition format (v : pyval) : str :=
  match v with
  | PyStr s => s
  | PyNone => py "None"
  end.

Definition extract_leaflet_data (element : Element) (hypermarket_name : str)
  : M Leaflet :=
  let* leaflet_thumbnail :=
    match select_one element (py "picture img") with
    | None => raise TypeError                       (* None['src'] *)
    | Some img =>
        match dict_get (attrs img) (py "src") with
        | None => raise KeyError
        | Some src => ret src
        end
    end in
  let* date_text :=
    match select_one element DATE_SELECTOR with
    | None => raise AttributeError                  (* None.text *)
    | Some small => ret (text small)
    end in
  let (start, end_) := parser_date date_text in
  Leaflet_init (py "Prospekt") leaflet_thumbnail hypermarket_name start end_.

(** The loop of [__scrape_leaflets], from the leaflets collected so far. *)
Fixpoint extract_all (leaflet_elements : list Element) (hypermarket_name : str)
    (leaflets : list Leaflet) : M (list Leaflet) :=
  match leaflet_elements with
  | [] => ret leaflets
  | element :: rest =>
      let* leaflet := extract_leaflet_data element hypermarket_name in
      extract_all rest hypermarket_name (leaflets ++ [leaflet])
  end.

Definition scrape_leaflets (url hypermarket_name : str) : M (list Leaflet) :=
  let* page := http_get url in
  extract_all (select page LEAFLET_ELEMENT_SELECTOR) hypermarket_name [].

Definition link_name (link : Element) : str := strip (text link).
Definition link_url (link : Element) : str :=
  base_url ++ format (tag_get link (py "href")).

(** The loop of [scrape_all_leaflets], from the collection built so far. *)
Fixpoint scrape_links (hypermarket_links : list Element)
    (leaflet_collection : LeafletCollection) : M LeafletCollection :=
  match hypermarket_links with
  | [] => ret leaflet_collection
  | link :: rest =>
      let hypermarket_name := link_name link in
      let url := link_url link in
      let* leaflets := scrape_leaflets url hypermarket_name in
      let* leaflet_collection' :=
        lift (append leaflet_collection hypermarket_name leaflets) in
      scrape_links rest leaflet_collection'
  end.

Definition scrape_all_leaflets : M LeafletCollection :=
  let* webpage := http_get (base_url ++ py "/hypermarkte/") in
  scrape_links (select webpage HYPERMARKET_LINK_SELECTOR) new_collection.

(** ** What a run of the orchestration loop did *)

(** One turn of the loop of [scrape_all_leaflets]: the retailer's name, the
    listing fragments its page had and the Records made of them. *)
Record Visit := {
  v_name : str;
  v_fragments : list Element;
  v_leaflets : list Leaflet
}.

(** The loop over the links [links], from world [w] to world [w']: for each
    link in turn, one fetch of its page and one extraction of its fragments. *)
Inductive visits : list Element -> World -> list Visit -> World -> Prop :=
| visits_nil w : visits [] w [] w
| visits_cons link links w page w0 leaflets w1 vs w2 :
    http_get (link_url link) w = inr (page, w0) ->
    extract_all (select page LEAFLET_ELEMENT_SELECTOR) (link_name link) [] w0
      = inr (leaflets, w1) ->
    visits links w1 vs w2 ->
    visits (link :: links) w
      ({| v_name := link_name link;
          v_fragments := select page LEAFLET_ELEMENT_SELECTOR;
          v_leaflets := leaflets |} :: vs) w2.

(** A sequence of [append] calls, one after the other. *)
Fixpoint append_all (calls : list (str * list Leaflet)) (c : LeafletCollection)
  : result LeafletCollection :=
  match calls with
  | [] => inr c
  | (key, data) :: rest => rbind (append c key data) (append_all rest)
  end.

Definition calls_of (vs : list Visit) : list (str * list Leaflet) :=
  map (fun v => (v_name v, v_leaflets v)) vs.

(** The Records of all the calls for [name], in call order. *)
Definition records_of (name : str) (calls : list (str * list Leaflet))
  : list Leaflet :=
  concat (map snd (filter (fun call => if str_eq_dec name (fst call)
                                       then true else false) calls)).

(** ** The end-to-end scenario of the specification

    A directory page with two retailer links, ShopA to [/a/] and ShopB to
    [/b/]; the page of ShopA has one listing fragment, the page of ShopB
    has none. *)

Definition leaf (text : str) (attrs : dict str) : Element :=
  Tag text attrs (fun _ => []).

Definition node (children : list (str * list Element)) : Element :=
  Tag [] [] (fun selector => match dict_get children selector with
                             | Some matches => matches
                             | None => []
                             end).

Definition scenario_fragment : Element :=
  node [ (py "picture img", [leaf [] [(py "src", py "/img1.jpg")]]);
         (DATE_SELECTOR, [leaf (py "Angebote 01.03 - 07.03.2024") []]) ].

Definition scenario_site : dict Element :=
  [ (base_url ++ py "/hypermarkte/",
     node [ (HYPERMARKET_LINK_SELECTOR,
             [ leaf (py " ShopA ") [(py "href", py "/a/")];
               leaf (py "ShopB") [(py "href", py "/b/")] ]) ]);
    (base_url ++ py "/a/",
     node [ (LEAFLET_ELEMENT_SELECTOR, [scenario_fragment]) ]);
    (base_url ++ py "/b/", node []) ].

Definition scenario_world : World :=
  {| web := fun _ url => match dict_get scenario_site url with
                         | Some page => inr page
                         | None => inl RequestException
                         end;
     wall_clock := fun _ => py "2024-03-01 12:00:00";
     requests := 0;
     clock_reads := 0 |}.

Definition scenario_leaflet : Leaflet :=
  {| title := py "Prospekt"; thumbnail := py "/img1.jpg";
     shop_name := py "ShopA";
     valid_from := PyStr (py "01.03"); valid_to := PyStr (py "07.03.2024");
     parsed_time := py "2024-03-01 12:00:00" |}.

Definition scenario_collection : LeafletCollection :=
  {| collection := [ (py "ShopA", [scenario_leaflet]); (py "ShopB", []) ] |}.

(** ** [Leaflet]: the accessors

    A setter returns the object after the assignment. *)

Definition get_title (self : Leaflet) : str := title self.
Definition get_thumbnail (self : Leaflet) : str := thumbnail self.
Definition get_shop_name (self : Leaflet) : str := shop_name self.
Definition get_valid_from (self : Leaflet) : pyval := valid_from self.
Definition get_valid_to (self : Leaflet) : pyval := valid_to self.
Definition get_parsed_time (self : Leaflet) : str := parsed_time self.

Definition set_title (self : Leaflet) (title' : str) : Leaflet :=
  {| title := title'; thumbnail := thumbnail self;
     shop_name := shop_name self; valid_from := valid_from self;
     valid_to := valid_to self; parsed_time := parsed_time self |}.

Definition set_thumbnail (self : Leaflet) (thumbnail' : str) : Leaflet :=
  {| title := title self; thumbnail := thumbnail';
     shop_name := shop_name self; valid_from := valid_from self;
     valid_to := valid_to self; parsed_time := parsed_time self |}.

Definition set_shop_name (self : Leaflet) (shop_name' : str) : Leaflet :=
  {| title := title self; thumbnail := thumbnail self;
     shop_name := shop_name'; valid_from := valid_from self;
     valid_to := valid_to self; parsed_time := parsed_time self |}.

Definition set_valid_from (self : Leaflet) (valid_from' : str) : Leaflet :=
  {| title := title self; thumbnail := thumbnail self;
     shop_name := shop_name self; valid_from := PyStr valid_from';
     valid_to := valid_to self; parsed_time := parsed_time self |}.

Definition set_valid_to (self : Leaflet) (valid_to' : str) : Leaflet :=
  {| title := title self; thumbnail := thumbnail self;
     shop_name := shop_name self; valid_from := valid_from self;
     valid_to := PyStr valid_to'; parsed_time := parsed_time self |}.

(** ** What the Field Extractor reads in a listing fragment *)

(** [element.select_one('picture img')['src']], where it has a value. *)
Definition fragment_thumbnail (element : Element) : option str :=
  match select_one element (py "picture img") with
  | Some img => dict_get (attrs img) (py "src")
  | None => None
  end.

(** [element.select_one(self.DATE_SELECTOR).text], where it has a value. *)
Definition fragment_date_text (element : Element) : option str :=
  match select_one element DATE_SELECTOR with
  | Some small => Some (text small)
  | None => None
  end.

(** The Record of a fragment with thumbnail [src] and date text
    [date_text], made at time [time] for the retailer [name]. *)
Definition leaflet_of (name src date_text time : str) : Leaflet :=
  {| title := py "Prospekt"; thumbnail := src; shop_name := name;
     valid_from := fst (parser_date date_text);
     valid_to := snd (parser_date date_text);
     parsed_time := time |}.

(** The Records of the fragments [els], the first one made at the [n]-th
    reading of [clock]; [None] where a fragment lacks its thumbnail or its
    date element. *)
Fixpoint leaflets_from (name : str) (clock : nat -> str) (n : nat)
    (els : list Element) : option (list Leaflet) :=
  match els with
  | [] => Some []
  | el :: rest =>
      match fragment_thumbnail el, fragment_date_text el,
            leaflets_from name clock (S n) rest with
      | Some src, Some date_text, Some ls =>
          Some (leaflet_of name src date_text (clock n) :: ls)
      | _, _, _ => None
      end
  end.

(** Any character but the hyphen. *)
Definition not_hyphen (x : char) : bool := negb (x =? hyphen)%N.

(** The world after [r] more requests and [t] more readings of the clock. *)
Definition later (w : World) (r t : nat) : World :=
  {| web := web w; wall_clock := wall_clock w;
     requests := requests w + r; clock_reads := clock_reads w + t |}.

(** The keys of a dict after assignments to [names], one after the other:
    a name not yet a key goes last. *)
Fixpoint keys_after (keys names : list str) : list str :=
  match names with
  | [] => keys
  | n :: rest =>
      keys_after (if in_dec str_eq_dec n keys then keys else keys ++ [n]) rest
  end.

(** The number of Records of a collection. *)
Definition total_leaflets (c : LeafletCollection) : nat :=
  length (concat (map snd (collection c))).

(** The web of the scenario going down after [k] requests: from then on
    every request raises. *)
Definition offline_after (k : nat) : World :=
  {| web := fun n url => if n <? k then web scenario_world n url
                         else inl RequestException;
     wall_clock := wall_clock scenario_world;
     requests := 0;
     clock_reads := 0 |}.

(** ** [DataSaver], [LeafletCollection.get_json] and
       [ProspektMaschineScraper.scrape]

    The file system is a parameter: its states, what it raises, and what
    the body of [save_json] (open the file for writing, [json.dump] into it
    with [ensure_ascii = False] and [indent = 4], close it) does to it. *)

Section Sink.
Variable Disk : Type.
Variable IOError : Type.
Variable write_json :
  dict (list (dict pyval)) -> str -> Disk -> option IOError * Disk.

(** What a run raises: an exception of the scraper or one of the sink. *)
Inductive run_exn :=
| Scraping (e : exn)
| Saving (e : IOError).

(** [file_name] is [None] where the caller leaves it out. *)
Definition save_json (json_data : dict (list (dict pyval)))
    (file_name : option str) (d : Disk) : option IOError * Disk :=
  write_json json_data
    (match file_name with
     | Some name => name
     | None => py "leaflets.json"
     end) d.

Definition get_json (self : LeafletCollection) (d : Disk)
  : option run_exn * Disk :=
  match serialize self with
  | inl e => (Some (Scraping e), d)
  | inr json_data =>
      match save_json json_data None d with
      | (Some e, d') => (Some (Saving e), d')
      | (None, d') => (None, d')
      end
  end.

(** [scrape]: the exception raised, if any, the world after the scraping
    where it returned, and the file system at the end. *)
Definition scrape (w : World) (d : Disk)
  : option run_exn * option World * Disk :=
  match scrape_all_leaflets w with
  | inl e => (Some (Scraping e), None, d)
  | inr (leaflet_collection, w') =>
      let (raised, d') := get_json leaflet_collection d in
      (raised, Some w', d')
  end.
End Sink.

(** A file system that keeps the documents written, by file name; it
    raises nothing. *)
Definition memory_disk : Type := dict (dict (list (dict pyval))).

Definition memory_write (json_data : dict (list (dict pyval)))
    (file_name : str) (d : memory_disk) : option Empty_set * memory_disk :=
  (None, dict_set d file_name json_data).

(** * Properties *)

Unset Implicit Arguments.

(** ** Lists *)

Lemma firstn_length_app_sub {A : Type} (s t : list A) :
  firstn (length (s ++ t) - length t) (s ++ t) = s.
Proof.
  rewrite length_app.
  replace (length s + length t - length t) with (length s + 0) by lia.
  rewrite firstn_app_2. simpl. apply app_nil_r.
Qed.

(** A prefix of characters satisfying [p], followed by one that does not,
    is determined by the whole string. *)
Lemma span_unique (p : char -> bool) :
  forall a a' b b' : str,
    forallb p a = true -> forallb p a' = true ->
    hd_error b <> None -> hd_error b' <> None ->
    (forall x, hd_error b = Some x -> p x = false) ->
    (forall x, hd_error b' = Some x -> p x = false) ->
    a ++ b = a' ++ b' -> a = a' /\ b = b'.
Proof.
  induction a as [|x a IH]; intros [|x' a'] b b' Ha Ha' Hb Hb' Nb Nb' E;
    simpl in *.
  - auto.
  - subst b. apply andb_prop in Ha'. destruct Ha' as [Hx _].
    rewrite (Nb x' eq_refl) in Hx. discriminate.
  - subst b'. apply andb_prop in Ha. destruct Ha as [Hx _].
    rewrite (Nb' x eq_refl) in Hx. discriminate.
  - apply andb_prop in Ha. apply andb_prop in Ha'.
    injection E as -> E.
    destruct (IH a' b b') as [-> ->]; tauto.
Qed.

(** ** The matcher against the meaning of a pattern *)

Lemma star_cls_sound k :
  forall t c kont res,
    star_cls k t c kont = Some res ->
    exists s t', t = s ++ t' /\ forallb (cls_match k) s = true /\
                 kont t' c = Some res.
Proof.
  induction t as [|x t IH]; intros c kont res H; simpl in H.
  - exists [], []. auto.
  - destruct (cls_match k x) eqn:Hx.
    + destruct (star_cls k t c kont) eqn:Hs.
      * injection H as ->. apply IH in Hs.
        destruct Hs as (s & t' & -> & Hf & Hk).
        exists (x :: s), t'. simpl. rewrite Hx, Hf. auto.
      * exists [], (x :: t). auto.
    + exists [], (x :: t). auto.
Qed.

Lemma star_cls_complete k :
  forall s t' c (kont : cont),
    forallb (cls_match k) s = true -> kont t' c <> None ->
    star_cls k (s ++ t') c kont <> None.
Proof.
  induction s as [|x s IH]; intros t' c kont Hs Hk; simpl in *.
  - destruct t' as [|y t']; simpl; auto.
    destruct (cls_match k y); auto.
    destruct (star_cls k t' c kont); auto. discriminate.
  - apply andb_prop in Hs. destruct Hs as [Hx Hs]. rewrite Hx.
    specialize (IH t' c kont Hs Hk).
    destruct (star_cls k (s ++ t') c kont); [discriminate | contradiction].
Qed.

(** Whatever the matcher finds is a match: [r] matched a prefix [s] of the
    text and the continuation accepted the rest. *)
Lemma matcher_sound :
  forall r t c kont res,
    matcher r t c kont = Some res ->
    exists s t' c', t = s ++ t' /\ sem r s c c' /\ kont t' c' = Some res.
Proof.
  induction r as [k | r1 IH1 r2 IH2 | r IH | n r IH | k | i r IH];
    intros t c kont res H; simpl in H.
  - destruct t as [|x t]; [discriminate|].
    destruct (cls_match k x) eqn:Hx; [|discriminate].
    exists [x], t, c. repeat split; auto. now constructor.
  - apply IH1 in H. destruct H as (s1 & t1 & c1 & -> & S1 & H).
    apply IH2 in H. destruct H as (s2 & t2 & c2 & -> & S2 & H).
    exists (s1 ++ s2), t2, c2. rewrite app_assoc. repeat split; auto.
    econstructor; eauto.
  - destruct (matcher r t c kont) eqn:Hm.
    + injection H as ->. apply IH in Hm.
      destruct Hm as (s & t' & c' & -> & S1 & Hk).
      exists s, t', c'. repeat split; auto. now constructor.
    + exists [], t, c. repeat split; auto. apply sem_opt_none.
  - revert t c H. induction n as [|n IHn]; intros t c H.
    + exists [], t, c. repeat split; auto. constructor.
    + apply IH in H. destruct H as (s1 & t1 & c1 & -> & S1 & H).
      apply IHn in H. destruct H as (s2 & t2 & c2 & -> & S2 & H).
      exists (s1 ++ s2), t2, c2. rewrite app_assoc. repeat split; auto.
      econstructor; eauto.
  - apply star_cls_sound in H. destruct H as (s & t' & -> & Hf & Hk).
    exists s, t', c. repeat split; auto. now constructor.
  - apply IH in H. destruct H as (s & t' & c' & -> & S1 & Hk).
    rewrite firstn_length_app_sub in Hk.
    exists s, t', ((i, s) :: c'). repeat split; auto. now constructor.
Qed.

(** Where a match exists the matcher finds one. *)
Lemma matcher_complete :
  forall r s c c',
    sem r s c c' ->
    forall t' (kont : cont),
      kont t' c' <> None -> matcher r (s ++ t') c kont <> None.
Proof.
  induction 1 as [k x c Hx | r1 r2 s1 s2 c0 c1 c2 _ IH1 _ IH2
                 | r s c c' _ IH | r c | r c
                 | r n s1 s2 c0 c1 c2 _ IH1 _ IH2 | k s c Hs
                 | i r s c c' _ IH];
    intros t' kont Hk; simpl.
  - now rewrite Hx.
  - rewrite <- app_assoc. apply IH1. now apply IH2.
  - specialize (IH t' kont Hk).
    destruct (matcher r (s ++ t') c kont); [discriminate | contradiction].
  - destruct (matcher r t' c kont); [discriminate | assumption].
  - assumption.
  - rewrite <- app_assoc. apply IH1. now apply (IH2 t' kont).
  - now apply star_cls_complete.
  - apply IH. now rewrite firstn_length_app_sub.
Qed.


Lemma in_ranges_iff (c : char) (rs : list (N * N)) :
  existsb (in_range c) rs = true <->
  exists lo hi, In (lo, hi) rs /\ (lo <= c <= hi)%N.
Proof.
  rewrite existsb_exists. split.
  - intros ([lo hi] & Hin & H). unfold in_range in H. simpl in H.
    apply andb_prop in H. destruct H as [H1 H2].
    apply N.leb_le in H1. apply N.leb_le in H2. eauto.
  - intros (lo & hi & Hin & H1 & H2). exists (lo, hi). split; auto.
    unfold in_range. simpl. apply andb_true_intro.
    split; now apply N.leb_le.
Qed.

Lemma space_not_digit c : is_space c = true -> is_digit c = false.
Proof.
  intros H. apply not_true_is_false. intros D.
  apply in_ranges_iff in H. apply in_ranges_iff in D.
  destruct H as (lo & hi & Hin & H). destruct D as (lo' & hi' & Hin' & D).
  unfold unicode_whitespace in Hin. unfold unicode_Nd in Hin'. simpl in Hin.
  simpl in Hin'.
  repeat (destruct Hin as [Hin | Hin];
          [injection Hin as <- <-;
           repeat (destruct Hin' as [Hin' | Hin'];
                   [injection Hin' as <- <-; lia|]);
           destruct Hin' |]).
  destruct Hin.
Qed.

Lemma sep_chars :
  is_digit dot = false /\ is_space dot = false /\
  is_digit hyphen = false /\ is_space hyphen = false.
Proof. repeat split; reflexivity. Qed.

Lemma digit_not_dot x : is_digit x = true -> (x =? dot)%N = false.
Proof.
  intros H. destruct (N.eqb_spec x dot) as [E|]; auto.
  rewrite E in H. discriminate H.
Qed.

Lemma sem_rep_chr k :
  forall n s c c',
    sem (Rep n (Chr k)) s c c' <->
    length s = n /\ forallb (cls_match k) s = true /\ c' = c.
Proof.
  induction n as [|n IH]; intros s c c'; split.
  - inversion 1; subst. auto.
  - intros (Hl & _ & ->). destruct s; [constructor | discriminate].
  - inversion 1 as [| | | | |r' n' s1 s2 c0 c1 c2 H1 H2| |]; subst.
    inversion H1; subst. apply IH in H2. destruct H2 as (<- & Hf & ->).
    simpl. rewrite Hf. auto using andb_true_intro.
  - intros (Hl & Hf & ->). destruct s as [|x s]; [discriminate|].
    simpl in *. injection Hl as Hl. apply andb_prop in Hf.
    destruct Hf as [Hx Hf].
    apply (sem_rep_S (r:=Chr k) (s1:=[x]) (c1:=c)).
    + now constructor.
    + apply IH. auto.
Qed.

Ltac inv_sem :=
  repeat match goal with
    | H : sem (Rep _ (Chr _)) _ _ _ |- _ =>
        apply sem_rep_chr in H; destruct H as (? & ? & ?); subst
    | H : sem (Cat _ _) _ _ _ |- _ => inversion H; subst; clear H
    | H : sem (Chr _) _ _ _ |- _ => inversion H; subst; clear H
    | H : sem (Opt _) _ _ _ |- _ => inversion H; subst; clear H
    | H : sem (Star _) _ _ _ |- _ => inversion H; subst; clear H
    | H : sem (Grp _ _) _ _ _ |- _ => inversion H; subst; clear H
    end.

(** Lists of a known length, as their elements. *)
Ltac explode :=
  repeat match goal with
    | H : length ?s = _ |- _ =>
        destruct s; simpl in H; try discriminate H;
        try (injection H as H)
    | H : 0 = 0 |- _ => clear H
    end.

Lemma cls_lit a x : cls_match (Lit a) x = true -> x = a.
Proof. simpl. intros H. apply N.eqb_eq in H. auto. Qed.

Ltac bools :=
  repeat match goal with
    | H : _ && _ = true |- _ => apply andb_prop in H; destruct H
    | H : cls_match (Lit _) _ = true |- _ => apply cls_lit in H; subst
    | H : cls_match Digit ?x = true |- _ => change (is_digit x = true) in H
    | H : cls_match Space ?x = true |- _ => change (is_space x = true) in H
    | H : true = true |- _ => clear H
    end.

Ltac digits :=
  repeat match goal with
    | H : is_digit ?x = true |- _ =>
        rewrite ?H, ?(digit_not_dot _ H); revert H
    end;
  intros.

Lemma sem_start_token s c c' :
  sem start_re s c c' -> start_token s = true /\ c' = c.
Proof.
  unfold start_re. intros H. inv_sem; bools; explode; simpl in *; bools.
  all: split; [|reflexivity]. 
  all: unfold start_token; simpl; rewrite ?N.eqb_refl; digits; simpl; digits.
  all: reflexivity.
Qed.

Lemma sem_end_token s c c' :
  sem end_re s c c' -> end_token s = true /\ c' = c.
Proof.
  unfold end_re. intros H. inv_sem; bools; explode; simpl in *; bools.
  all: split; [|reflexivity]. 
  all: unfold end_token, is_dd_dd_yyyy; simpl; rewrite ?N.eqb_refl; digits; simpl; digits.
  all: reflexivity.
Qed.

Lemma sem_digits n s c :
  length s = n -> forallb is_digit s = true -> sem (Rep n (Chr Digit)) s c c.
Proof. intros. apply sem_rep_chr. auto. Qed.

Lemma sem_lit x c : sem (Chr (Lit x)) [x] c c.
Proof. constructor. simpl. apply N.eqb_refl. Qed.

Lemma start_sem_build a b o1 o2 c :
  sem (Rep 2 (Chr Digit)) a c c -> sem (Rep 2 (Chr Digit)) b c c ->
  sem (Opt (Chr (Lit dot))) o1 c c -> sem (Opt (Rep 4 (Chr Digit))) o2 c c ->
  sem start_re (a ++ [dot] ++ b ++ o1 ++ o2) c c.
Proof.
  intros. unfold start_re.
  repeat (eapply sem_cat; eauto using sem_lit).
Qed.

Lemma end_sem_build a b y c :
  sem (Rep 2 (Chr Digit)) a c c -> sem (Rep 2 (Chr Digit)) b c c ->
  sem (Rep 4 (Chr Digit)) y c c ->
  sem end_re (a ++ [dot] ++ b ++ [dot] ++ y) c c.
Proof.
  intros. unfold end_re.
  repeat (eapply sem_cat; eauto using sem_lit).
Qed.

Ltac two_digits :=
  apply sem_digits; [reflexivity | simpl; digits; reflexivity].

Lemma start_token_sem s c : start_token s = true -> sem start_re s c c.
Proof.
  unfold start_token. intros H. apply andb_prop in H. destruct H as [H1 H2].
  do 5 (destruct s as [|? s]; try discriminate H1).
  simpl in H1, H2. bools. apply N.eqb_eq in H3. subst.
  destruct s as [|p y].
  - apply (start_sem_build [c0; c1] [c3; c4] [] []);
      try two_digits; apply sem_opt_none.
  - destruct (N.eqb_spec p dot) as [->|Hp].
    + destruct y as [|y1 y].
      * apply (start_sem_build [c0; c1] [c3; c4] [dot] []);
          try two_digits; [apply sem_opt_some, sem_lit | apply sem_opt_none].
      * do 3 (destruct y as [|? y]; try discriminate H2).
        destruct y; try discriminate H2. simpl in H2. bools.
        apply (start_sem_build [c0; c1] [c3; c4] [dot] [y1; c2; c5; c6]);
          try two_digits; [apply sem_opt_some, sem_lit | apply sem_opt_some].
        two_digits.
    + do 3 (destruct y as [|? y]; try discriminate H2).
      destruct y; try discriminate H2. simpl in H2. bools.
      apply (start_sem_build [c0; c1] [c3; c4] [] [p; c2; c5; c6]);
        try two_digits; [apply sem_opt_none | apply sem_opt_some].
      two_digits.
Qed.

Lemma end_token_sem s c : end_token s = true -> sem end_re s c c.
Proof.
  unfold end_token, is_dd_dd_yyyy. intros H.
  apply andb_prop in H. destruct H as [H1 H2].
  do 5 (destruct s as [|? s]; try discriminate H1).
  simpl in H1, H2. bools. apply N.eqb_eq in H3. subst.
  destruct s as [|p y]; [discriminate|]. bools. apply N.eqb_eq in H2. subst.
  do 4 (destruct y as [|? y]; try discriminate H3).
  destruct y; try discriminate H3. simpl in H3. bools.
  apply (end_sem_build [c0; c1] [c3; c4] [c2; c5; c6; c7]); two_digits.
Qed.

Lemma sem_pattern s c c' :
  sem pattern s c c' <->
  exists st ws1 ws2 en,
    s = st ++ ws1 ++ [hyphen] ++ ws2 ++ en /\
    start_token st = true /\ spaces ws1 = true /\ spaces ws2 = true /\
    end_token en = true /\ c' = (2, en) :: (1, st) :: c.
Proof.
  unfold pattern. split.
  - intros H. inv_sem. bools.
    repeat match goal with
      | H : sem start_re _ _ _ |- _ => apply sem_start_token in H; destruct H; subst
      | H : sem end_re _ _ _ |- _ => apply sem_end_token in H; destruct H; subst
      end.
    eexists _, _, _, _. repeat split; eauto.
  - intros (st & ws1 & ws2 & en & -> & Hs & H1 & H2 & He & ->).
    repeat (eapply sem_cat; eauto using sem_lit);
      try (apply sem_grp; auto using start_token_sem, end_token_sem);
      try (apply sem_star; assumption).
Qed.

(** ** A date range at a position is unique *)

Lemma space_not_tok x : is_space x = true -> tok x = false.
Proof.
  intros H. unfold tok. rewrite (space_not_digit _ H). simpl.
  destruct (N.eqb_spec x dot) as [E|]; auto.
  rewrite E in H. discriminate H.
Qed.

Lemma start_token_tok s : start_token s = true -> forallb tok s = true.
Proof.
  intros H. apply (start_token_sem s []) in H. unfold start_re in H.
  inv_sem; bools; explode; simpl in *; bools; unfold tok.
  all: rewrite ?N.eqb_refl; digits; reflexivity.
Qed.

Lemma end_token_shape e :
  end_token e = true ->
  length e = 10 /\ exists x e', e = x :: e' /\ is_digit x = true.
Proof.
  intros H. apply (end_token_sem e []) in H. unfold end_re in H.
  inv_sem; bools; explode; simpl in *; bools. eauto.
Qed.

Lemma start_token_shape s :
  start_token s = true -> exists x s', s = x :: s' /\ is_digit x = true.
Proof.
  intros H. apply (start_token_sem s []) in H. unfold start_re in H.
  inv_sem; bools; explode; simpl in *; bools; eauto.
Qed.

Lemma app_inv_length {A} (a a' b b' : list A) :
  length a = length a' -> a ++ b = a' ++ b' -> a = a' /\ b = b'.
Proof.
  revert a'. induction a as [|x a IH]; intros [|x' a'] L E;
    try discriminate L; simpl in *; auto.
  injection E as -> E. injection L as L.
  destruct (IH a' L E) as [-> ->]. auto.
Qed.

Lemma range_at_unique s e s' e' t :
  range_at s e t -> range_at s' e' t -> s = s' /\ e = e'.
Proof.
  intros (w1 & w2 & r & -> & Hs & H1 & H2 & He)
         (w1' & w2' & r' & E & Hs' & H1' & H2' & He').
  assert (Hsep : forall (w : str) X x, spaces w = true ->
            hd_error (w ++ [hyphen] ++ X) = Some x -> tok x = false).
  { intros [|y w] X x Hw Hx; simpl in Hx; injection Hx as <-.
    - reflexivity.
    - simpl in Hw. apply andb_prop in Hw. now apply space_not_tok. }
  assert (Hne : forall (w X : str), hd_error (w ++ [hyphen] ++ X) <> None).
  { intros [|y w] X; discriminate. }
  apply span_unique with (p := tok) in E;
    eauto using start_token_tok.
  destruct E as [<- E]. split; [reflexivity|].
  apply span_unique with (p := is_space) in E; auto; try discriminate;
    try (simpl; intros x [= <-]; reflexivity).
  destruct E as [_ E]. injection E as E.
  destruct (end_token_shape _ He) as (L & x & e1 & -> & Hx).
  destruct (end_token_shape _ He') as (L' & x' & e1' & -> & Hx').
  apply span_unique with (p := is_space) in E; auto; try discriminate.
  - destruct E as [_ E]. apply app_inv_length in E; [tauto | congruence].
  - simpl. intros y [= <-]. destruct (is_space x) eqn:Sx; auto.
    apply space_not_digit in Sx. congruence.
  - simpl. intros y [= <-]. destruct (is_space x') eqn:Sx; auto.
    apply space_not_digit in Sx. congruence.
Qed.

(** ** What [pattern] matches at a position *)

Lemma match_at_range t c :
  match_at pattern t = Some c <->
  exists s e, range_at s e t /\ c = [(2, e); (1, s)].
Proof.
  assert (Hsound : forall c0, match_at pattern t = Some c0 ->
            exists s e, range_at s e t /\ c0 = [(2, e); (1, s)]).
  { intros c0 H. apply matcher_sound in H.
    destruct H as (m & t' & c' & -> & Hm & [= <-]).
    apply sem_pattern in Hm.
    destruct Hm as (st & w1 & w2 & en & -> & Hs & H1 & H2 & He & ->).
    exists st, en. split; [|reflexivity].
    exists w1, w2, t'. repeat rewrite <- app_assoc. auto. }
  split; [apply Hsound|].
  intros (s & e & R & ->).
  destruct (match_at pattern t) as [c0|] eqn:Hm.
  - destruct (Hsound c0 eq_refl) as (s' & e' & R' & ->).
    destruct (range_at_unique _ _ _ _ _ R R') as [-> ->]. reflexivity.
  - exfalso. destruct R as (w1 & w2 & r & -> & Hs & H1 & H2 & He).
    revert Hm. unfold match_at.
    replace (s ++ w1 ++ [hyphen] ++ w2 ++ e ++ r)
      with ((s ++ w1 ++ [hyphen] ++ w2 ++ e) ++ r)
      by (repeat rewrite <- app_assoc; reflexivity).
    apply matcher_complete with (c' := [(2, e); (1, s)]); [|discriminate].
    apply sem_pattern. exists s, w1, w2, e. auto 10.
Qed.

Lemma match_at_none t :
  match_at pattern t = None <-> forall s e, ~ range_at s e t.
Proof.
  split.
  - intros H s e R.
    assert (match_at pattern t = Some [(2, e); (1, s)])
      by (apply match_at_range; eauto).
    congruence.
  - intros H. destruct (match_at pattern t) as [c|] eqn:Hm; auto.
    apply match_at_range in Hm. destruct Hm as (s & e & R & _).
    destruct (H s e R).
Qed.

(** ** [search] finds the leftmost position with a match *)

Lemma search_spec r :
  forall t,
    match search r t with
    | Some c =>
        exists p, p <= length t /\ match_at r (skipn p t) = Some c /\
                  forall q, q < p -> match_at r (skipn q t) = None
    | None => forall p, p <= length t -> match_at r (skipn p t) = None
    end.
Proof.
  induction t as [|x t IH]; simpl.
  - destruct (match_at r []) eqn:Hm.
    + exists 0. repeat split; auto. intros q Hq. lia.
    + intros p Hp. now destruct p.
  - destruct (match_at r (x :: t)) eqn:Hm.
    + exists 0. repeat split; auto with arith. intros q Hq. lia.
    + destruct (search r t) as [c|].
      * destruct IH as (p & Hp & Hc & Hq). exists (S p).
        repeat split; auto with arith.
        intros [|q] Hlt; simpl; auto with arith.
      * intros [|p] Hp; simpl; auto with arith.
Qed.

Lemma search_leftmost r t p c :
  p <= length t -> match_at r (skipn p t) = Some c ->
  (forall q, q < p -> match_at r (skipn q t) = None) ->
  search r t = Some c.
Proof.
  intros Hp Hc Hq. generalize (search_spec r t).
  destruct (search r t) as [c'|].
  - intros (p' & Hp' & Hc' & Hq').
    destruct (lt_eq_lt_dec p p') as [[L|E]|L].
    + rewrite (Hq' p L) in Hc. discriminate.
    + subst. congruence.
    + rewrite (Hq p' L) in Hc'. discriminate.
  - intros H. rewrite (H p Hp) in Hc. discriminate.
Qed.

(** ** The parser *)

Lemma parser_date_leftmost text p s e :
  occurs_at text p s e -> none_before text p ->
  parser_date text = (PyStr s, PyStr e).
Proof.
  intros [Hp R] Hb. unfold parser_date.
  rewrite (search_leftmost pattern text p [(2, e); (1, s)]); auto.
  - apply match_at_range. eauto.
  - intros q Hq. apply match_at_none. intros s' e' R'.
    apply (Hb q s' e' Hq). split; auto. lia.
Qed.

Lemma parser_date_cases text :
  (parser_date text = (PyStr [], PyStr []) /\
   forall p s e, ~ occurs_at text p s e) \/
  (exists p s e, occurs_at text p s e /\ none_before text p /\
                 parser_date text = (PyStr s, PyStr e)).
Proof.
  unfold parser_date. generalize (search_spec pattern text).
  destruct (search pattern text) as [c|].
  - intros (p & Hp & Hc & Hq). right.
    apply match_at_range in Hc. destruct Hc as (s & e & R & ->).
    exists p, s, e. repeat split; auto.
    intros q s' e' Hlt [_ R']. specialize (Hq q Hlt).
    rewrite match_at_none in Hq. apply (Hq s' e' R').
  - intros H. left. split; auto.
    intros p s e [Hp R]. specialize (H p Hp).
    rewrite match_at_none in H. apply (H s e R).
Qed.

(** ** The shapes of the tokens, spelled out *)

Ltac dd_dd d H :=
  do 5 (destruct d as [|? d]; try discriminate H);
  destruct d; try discriminate H; simpl in H; bools;
  match goal with E : (_ =? dot)%N = true |- _ => apply N.eqb_eq in E; subst end.

Ltac yyyy y H :=
  do 4 (destruct y as [|? y]; try discriminate H);
  destruct y; try discriminate H; simpl in H; bools.

Lemma start_token_shapes s :
  start_token s = true <->
  exists d, is_dd_dd d = true /\
            (s = d \/ s = d ++ [dot] \/
             exists y, is_yyyy y = true /\ (s = d ++ y \/ s = d ++ [dot] ++ y)).
Proof.
  split.
  - unfold start_token. intros H. apply andb_prop in H. destruct H as [H1 H2].
    do 5 (destruct s as [|? s]; try discriminate H1).
    exists [c; c0; c1; c2; c3]. split; [exact H1|].
    simpl in H2. destruct s as [|p y]; auto.
    destruct (N.eqb_spec p dot) as [->|Hp].
    + destruct y as [|y1 y]; auto.
      right. right. exists (y1 :: y). auto.
    + right. right. exists (p :: y). auto.
  - intros (d & Hd & [->|[->|(y & Hy & [->| ->])]]); dd_dd d Hd;
      try (yyyy y Hy); unfold start_token; simpl; rewrite ?N.eqb_refl;
      digits; simpl; digits; reflexivity.
Qed.

Lemma end_token_shapes e :
  end_token e = true <->
  exists d y, is_dd_dd d = true /\ is_yyyy y = true /\ e = d ++ [dot] ++ y.
Proof.
  unfold end_token, is_dd_dd_yyyy. split.
  - intros H. apply andb_prop in H. destruct H as [H1 H2].
    do 5 (destruct e as [|? e]; try discriminate H1).
    simpl in H2. destruct e as [|p y]; [discriminate|]. bools.
    apply N.eqb_eq in H. subst p.
    exists [c; c0; c1; c2; c3], y. auto.
  - intros (d & y & Hd & Hy & ->). dd_dd d Hd. yyyy y Hy.
    simpl. rewrite ?N.eqb_refl. digits. reflexivity.
Qed.

Lemma spec_start_token_start s :
  spec_start_token s = true -> start_token s = true.
Proof.
  unfold spec_start_token. intros H. apply orb_prop in H.
  apply start_token_shapes. destruct H as [H|H].
  - exists s. auto.
  - apply end_token_shapes in H. destruct H as (d & y & Hd & Hy & ->).
    exists d. split; auto. right. right. exists y. auto.
Qed.

(** ** Checking a text by evaluation *)

Lemma occurs_at_check text p s e :
  (p <=? length text) = true ->
  match_at pattern (skipn p text) = Some [(2, e); (1, s)] ->
  occurs_at text p s e.
Proof.
  intros Hp Hm. split; [now apply Nat.leb_le|].
  apply match_at_range in Hm. destruct Hm as (s' & e' & R & [= -> ->]).
  exact R.
Qed.

Lemma none_before_check text p :
  forallb (fun q => match match_at pattern (skipn q text) with
                    | None => true
                    | Some _ => false
                    end) (seq 0 p) = true ->
  none_before text p.
Proof.
  intros H q s e Hq [_ R]. rewrite forallb_forall in H.
  specialize (H q). rewrite in_seq in H.
  assert (M : match_at pattern (skipn q text) = Some [(2, e); (1, s)])
    by (apply match_at_range; eauto).
  rewrite M in H. discriminate H. lia.
Qed.

Lemma no_range_check text :
  search pattern text = None -> forall p s e, ~ occurs_at text p s e.
Proof.
  intros H p s e [Hp R]. generalize (search_spec pattern text). rewrite H.
  intros N. specialize (N p Hp). rewrite match_at_none in N.
  apply (N s e R).
Qed.

Lemma occurs_at_app pre s ws1 ws2 e post :
  start_token s = true -> spaces ws1 = true -> spaces ws2 = true ->
  end_token e = true ->
  occurs_at (pre ++ s ++ ws1 ++ [hyphen] ++ ws2 ++ e ++ post) (length pre) s e.
Proof.
  intros Hs H1 H2 He. split.
  - rewrite length_app. lia.
  - rewrite skipn_app, skipn_all, Nat.sub_diag. simpl.
    exists ws1, ws2, post. auto.
Qed.

Lemma occurs_at_unique text p s e s' e' :
  occurs_at text p s e -> occurs_at text p s' e' -> s = s' /\ e = e'.
Proof. intros [_ R] [_ R']. eapply range_at_unique; eauto. Qed.

Lemma range_at_nonempty s e t : range_at s e t -> s <> [] /\ e <> [].
Proof.
  intros (w1 & w2 & r & _ & Hs & _ & _ & He).
  destruct (start_token_shape _ Hs) as (x & s' & -> & _).
  destruct (end_token_shape _ He) as (_ & y & e' & -> & _).
  split; discriminate.
Qed.

(** ** The Date-Range Parser *)

Example parser_date_scenario :
  parser_date (py "Angebote 01.03 - 07.03.2024")
  = (PyStr (py "01.03"), PyStr (py "07.03.2024")).
Proof. vm_compute. reflexivity. Qed.

Example parser_date_full_start :
  parser_date (py "vom 01.03.2024-07.03.2024 an")
  = (PyStr (py "01.03.2024"), PyStr (py "07.03.2024")).
Proof. vm_compute. reflexivity. Qed.

Example parser_date_year_without_dot :
  parser_date (py "01.032024 - 07.03.2024")
  = (PyStr (py "01.032024"), PyStr (py "07.03.2024")).
Proof. vm_compute. reflexivity. Qed.

(** C1. A text that contains [DD.DD-DD.DD.YYYY] or [DD.DD.YYYY-DD.DD.YYYY],
    with optional whitespace around the hyphen, makes the parser return the
    two tokens of a date range of the text, as they stand in the text: the
    range at the leftmost position that has one, which is at or before the
    given one. Where no range begins before the given one the result is
    its two tokens [s] and [e] themselves: a start token [DD.DD] comes back
    as these five characters, without the year of the end token. *)
Theorem C1_parser_date_returns_matched_substrings :
  forall (text pre s ws1 ws2 e post : str),
    text = pre ++ s ++ ws1 ++ [hyphen] ++ ws2 ++ e ++ post ->
    spec_start_token s = true ->
    spaces ws1 = true -> spaces ws2 = true ->
    end_token e = true ->
    (exists p s' e',
        p <= length pre /\ occurs_at text p s' e' /\ none_before text p /\
        parser_date text = (PyStr s', PyStr e')) /\
    (none_before text (length pre) ->
     parser_date text = (PyStr s, PyStr e)).
Proof.
  intros text pre s ws1 ws2 e post -> Hs H1 H2 He.
  assert (O := occurs_at_app pre s ws1 ws2 e post
                 (spec_start_token_start s Hs) H1 H2 He).
  split.
  - destruct (parser_date_cases
                (pre ++ s ++ ws1 ++ [hyphen] ++ ws2 ++ e ++ post))
      as [[_ N]|(p & s' & e' & O' & B & E)].
    + destruct (N _ _ _ O).
    + exists p, s', e'. repeat split; auto; try apply O'.
      destruct (le_lt_dec p (length pre)) as [L|L]; auto.
      destruct (B _ _ _ L O).
  - intros B. now apply parser_date_leftmost with (p := length pre).
Qed.

(** The scenario of the specification: the range is the first of the text. *)
Lemma C1_witness :
  spec_start_token (py "01.03") = true /\
  end_token (py "07.03.2024") = true /\
  parser_date (py "Angebote 01.03 - 07.03.2024")
  = (PyStr (py "01.03"), PyStr (py "07.03.2024")).
Proof.
  split; [reflexivity|]. split; [reflexivity|].
  apply (proj2 (C1_parser_date_returns_matched_substrings
                  (py "Angebote 01.03 - 07.03.2024")
                  (py "Angebote ") (py "01.03") (py " ") (py " ")
                  (py "07.03.2024") []
                  eq_refl eq_refl eq_refl eq_refl eq_refl)).
  apply none_before_check. vm_compute. reflexivity.
Defined.

(** C2, as stated, fails: the text [01.03.-07.03.2024] matches, with the
    start token [01.03.], which is neither [DD.DD] nor [DD.DD.YYYY]. *)
Lemma C2_counterexample :
  parser_date (py "01.03.-07.03.2024")
  = (PyStr (py "01.03."), PyStr (py "07.03.2024")) /\
  match_at pattern (py "01.03.-07.03.2024")
  = Some [(2, py "07.03.2024"); (1, py "01.03.")] /\
  spec_start_token (py "01.03.") = false.
Proof. repeat split; vm_compute; reflexivity. Qed.

(** C2, amended. The pattern matches at the beginning of a text exactly
    when a date range begins there ([range_at]): a start token, optional
    whitespace, a hyphen, optional whitespace, an end token; the two groups
    are the two tokens. The start token is [DD.DD] followed by an optional
    dot and then an optional [YYYY], so it is one of [DD.DD], [DD.DD.],
    [DD.DDYYYY] and [DD.DD.YYYY]; the end token is [DD.DD.YYYY]. *)
Theorem C2_pattern_token_shapes :
  (forall t c,
      match_at pattern t = Some c <->
      exists s e, range_at s e t /\ c = [(2, e); (1, s)]) /\
  (forall s,
      start_token s = true <->
      exists d, is_dd_dd d = true /\
                (s = d \/ s = d ++ [dot] \/
                 exists y, is_yyyy y = true /\
                           (s = d ++ y \/ s = d ++ [dot] ++ y))) /\
  (forall e,
      end_token e = true <->
      exists d y, is_dd_dd d = true /\ is_yyyy y = true /\
                  e = d ++ [dot] ++ y).
Proof.
  split; [exact match_at_range|].
  split; [exact start_token_shapes | exact end_token_shapes].
Qed.

(** C3. A text in which no date range begins at any position makes the
    parser return the pair of two empty strings; the parser is a total
    function, it has no exception to raise. *)
Theorem C3_parser_date_no_match :
  forall text : str,
    (forall p s e, ~ occurs_at text p s e) ->
    search pattern text = None /\
    parser_date text = (PyStr [], PyStr []).
Proof.
  intros text N.
  destruct (parser_date_cases text) as [[E _]|(p & s & e & O & _)].
  - split; auto. generalize (search_spec pattern text).
    destruct (search pattern text) as [c|]; auto.
    intros (p & Hp & Hc & _). apply match_at_range in Hc.
    destruct Hc as (s & e & R & _). destruct (N p s e). split; auto.
  - destruct (N _ _ _ O).
Qed.

(** The text of the specification's scenario without a range (its
    u-umlaut is code point 252). *)
Lemma C3_witness :
  parser_date (py "Angebote g" ++ [252%N] ++ py "ltig") = (PyStr [], PyStr []).
Proof.
  apply (C3_parser_date_no_match (py "Angebote g" ++ [252%N] ++ py "ltig")).
  apply no_range_check. vm_compute. reflexivity.
Defined.

(** C4. In a text where a date range begins at [p1] and another at a later
    position [p2], the parser returns the tokens of one range only: the one
    at the leftmost position [p] that has a range, which is at or before
    [p1]; it is the range at [p1] where none begins before it. The range at
    [p2] does not reach the result. *)
Theorem C4_parser_date_first_match_only :
  forall (text : str) (p1 p2 : nat) (s1 e1 s2 e2 : str),
    occurs_at text p1 s1 e1 ->
    occurs_at text p2 s2 e2 ->
    p1 < p2 ->
    exists p s e,
      p <= p1 /\ p < p2 /\ occurs_at text p s e /\ none_before text p /\
      parser_date text = (PyStr s, PyStr e) /\
      (none_before text p1 -> p = p1 /\ s = s1 /\ e = e1).
Proof.
  intros text p1 p2 s1 e1 s2 e2 O1 O2 L.
  destruct (parser_date_cases text) as [[_ N]|(p & s & e & O & B & E)].
  - destruct (N _ _ _ O1).
  - assert (Hp : p <= p1).
    { destruct (le_lt_dec p p1) as [Hp|Hp]; auto. destruct (B _ _ _ Hp O1). }
    exists p, s, e.
    split; [exact Hp|]. split; [lia|]. split; [exact O|].
    split; [exact B|]. split; [exact E|].
    intros B1. assert (p = p1).
    { destruct (le_lt_dec p1 p) as [G|G]; [lia | destruct (B1 _ _ _ G O)]. }
    subst. split; [reflexivity|]. apply (occurs_at_unique _ _ _ _ _ _ O O1).
Qed.

(** Two ranges, at positions 0 and 17: the one at 0 is returned. *)
Lemma C4_witness :
  parser_date (py "01.03-07.03.2024 08.03.2024 - 14.03.2024")
  = (PyStr (py "01.03"), PyStr (py "07.03.2024")).
Proof.
  destruct (C4_parser_date_first_match_only
              (py "01.03-07.03.2024 08.03.2024 - 14.03.2024") 0 17
              (py "01.03") (py "07.03.2024")
              (py "08.03.2024") (py "14.03.2024"))
    as (p & s & e & _ & _ & _ & _ & E & U).
  - apply occurs_at_check; vm_compute; reflexivity.
  - apply occurs_at_check; vm_compute; reflexivity.
  - repeat constructor.
  - destruct U as (_ & -> & ->); [|exact E].
    intros q s' e' Hq. inversion Hq.
Defined.

(** C10. The two strings the parser returns are both empty or both
    non-empty. *)
Theorem C10_parser_date_both_or_neither :
  forall text : str,
    parser_date text = (PyStr [], PyStr []) \/
    exists s e, parser_date text = (PyStr s, PyStr e) /\ s <> [] /\ e <> [].
Proof.
  intros text.
  destruct (parser_date_cases text) as [[E _]|(p & s & e & [_ R] & _ & E)].
  - left. exact E.
  - right. exists s, e. split; [exact E|]. eapply range_at_nonempty; eauto.
Qed.

(** ** Dicts *)

Section DictFacts.
Context {V : Type}.
Implicit Types (d : dict V) (k : str) (v : V).

Lemma dict_get_set_same d k v : dict_get (dict_set d k v) k = Some v.
Proof.
  induction d as [|[k' v'] d IH]; simpl.
  - destruct (str_eq_dec k k); congruence.
  - destruct (str_eq_dec k k') as [->|N]; simpl.
    + destruct (str_eq_dec k' k'); congruence.
    + destruct (str_eq_dec k k'); congruence.
Qed.

Lemma dict_get_set_other d k k0 v :
  k0 <> k -> dict_get (dict_set d k v) k0 = dict_get d k0.
Proof.
  intros N. induction d as [|[k' v'] d IH]; simpl.
  - destruct (str_eq_dec k0 k); congruence.
  - destruct (str_eq_dec k k') as [->|N']; simpl.
    + destruct (str_eq_dec k0 k'); congruence.
    + destruct (str_eq_dec k0 k'); congruence.
Qed.

Lemma dict_set_set d k v v' :
  dict_set (dict_set d k v) k v' = dict_set d k v'.
Proof.
  induction d as [|[k' v0] d IH]; simpl.
  - destruct (str_eq_dec k k); congruence.
  - destruct (str_eq_dec k k') as [->|N]; simpl.
    + destruct (str_eq_dec k' k'); congruence.
    + destruct (str_eq_dec k k'); congruence.
Qed.

Lemma dict_get_In d k : dict_get d k <> None <-> In k (dict_keys d).
Proof.
  induction d as [|[k' v'] d IH]; simpl.
  - tauto.
  - destruct (str_eq_dec k k') as [->|N].
    + split; [auto | discriminate].
    + rewrite IH. split; [auto | intros [E|H]; congruence].
Qed.

(** A present key keeps its place, a new key goes last. *)
Lemma dict_keys_set d k v :
  dict_keys (dict_set d k v)
  = if dict_contains d k then dict_keys d else dict_keys d ++ [k].
Proof.
  unfold dict_contains.
  induction d as [|[k' v'] d IH]; simpl; auto.
  destruct (str_eq_dec k k') as [->|N]; simpl; auto.
  rewrite IH. destruct (dict_get d k); reflexivity.
Qed.

Lemma dict_set_absent d k v :
  dict_get d k = None -> dict_set d k v = d ++ [(k, v)].
Proof.
  induction d as [|[k' v'] d IH]; simpl; auto.
  destruct (str_eq_dec k k'); [discriminate|].
  intros H. now rewrite IH.
Qed.

Lemma dict_set_last d k v v' :
  dict_get d k = None -> dict_set (d ++ [(k, v)]) k v' = d ++ [(k, v')].
Proof.
  intros H. rewrite <- (dict_set_absent d k v H), dict_set_set.
  now apply dict_set_absent.
Qed.

Lemma dict_get_last d k v :
  dict_get d k = None -> dict_get (d ++ [(k, v)]) k = Some v.
Proof.
  intros H. rewrite <- (dict_set_absent d k v H). apply dict_get_set_same.
Qed.

Lemma dict_wf_set d k v : dict_wf d -> dict_wf (dict_set d k v).
Proof.
  unfold dict_wf. rewrite dict_keys_set. unfold dict_contains.
  destruct (dict_get d k) eqn:G; auto.
  intros H. apply NoDup_app; auto.
  - constructor; [intros []|constructor].
  - intros x Hx [<-|[]]. apply dict_get_In in Hx. auto.
Qed.
End DictFacts.

(** ** [LeafletCollection.append] *)

(** What [append] stores: the state of the collection after the call. *)
Lemma append_eq c key data :
  append c key data
  = inr {| collection :=
             dict_set (collection c) key
               (match dict_get (collection c) key with
                | Some l => l ++ data
                | None => [] ++ data
                end) |}.
Proof.
  unfold append, dict_contains, dict_getitem.
  destruct (dict_get (collection c) key) as [l|] eqn:G.
  - rewrite G. reflexivity.
  - rewrite dict_get_set_same. simpl. now rewrite dict_set_set.
Qed.

Lemma append_wf c key data c' :
  append c key data = inr c' ->
  dict_wf (collection c) -> dict_wf (collection c').
Proof.
  rewrite append_eq. intros [= <-]. simpl. apply dict_wf_set.
Qed.

(** C7. [append(key, records)] always succeeds; afterwards [key] holds its
    former sequence (the empty one if it was absent) followed by all the
    given records in order, every other key holds what it held, and the
    keys are the former ones, with [key] added last if it was new. The
    model returns the collection after the call in place of [None]. *)
Theorem C7_append_inserts_then_extends :
  forall (c : LeafletCollection) (key : str) (data : list Leaflet),
  exists c',
    append c key data = inr c' /\
    dict_get (collection c') key
    = Some (match dict_get (collection c) key with
            | Some l => l ++ data
            | None => [] ++ data
            end) /\
    (forall k, k <> key ->
               dict_get (collection c') k = dict_get (collection c) k) /\
    dict_keys (collection c')
    = (if dict_contains (collection c) key
       then dict_keys (collection c)
       else dict_keys (collection c) ++ [key]).
Proof.
  intros c key data. eexists. split; [apply append_eq|]. simpl.
  split; [apply dict_get_set_same|].
  split; [intros k N; now apply dict_get_set_other|].
  apply dict_keys_set.
Qed.

(** C6. For a fixed key, appending [a] and then [b] leaves the collection
    in the state that appending [a ++ b] in one call does. *)
Theorem C6_append_associative :
  forall (c : LeafletCollection) (key : str) (a b : list Leaflet),
    rbind (append c key a) (fun c' => append c' key b)
    = append c key (a ++ b).
Proof.
  intros c key a b. rewrite (append_eq c key a). simpl.
  rewrite !append_eq. simpl.
  rewrite dict_get_set_same, dict_set_set.
  destruct (dict_get (collection c) key); simpl;
    now rewrite ?app_assoc.
Qed.

(** ** [LeafletCollection.__serialize] *)

Lemma serialize_leaflets_last name :
  forall (ls : list Leaflet) (ser : dict (list (dict pyval))) acc,
    dict_get ser name = None ->
    serialize_leaflets name ls (ser ++ [(name, acc)])
    = inr (ser ++ [(name, acc ++ map to_dict ls)]).
Proof.
  induction ls as [|l ls IH]; intros ser acc H; simpl.
  - now rewrite app_nil_r.
  - unfold dict_getitem. rewrite (dict_get_last _ _ _ H). simpl.
    rewrite (dict_set_last _ _ _ _ H), IH by assumption.
    now rewrite <- app_assoc.
Qed.

Lemma serialize_items_map :
  forall (items done : list (str * list Leaflet)),
    NoDup (map fst (done ++ items)) ->
    serialize_items items (map serialize_item done)
    = inr (map serialize_item (done ++ items)).
Proof.
  induction items as [|[k ls] items IH]; intros done H; simpl.
  - now rewrite app_nil_r.
  - assert (G : dict_get (map serialize_item done) k = None).
    { destruct (dict_get (map serialize_item done) k) eqn:G; auto.
      exfalso.
      assert (I : In k (dict_keys (map serialize_item done)))
        by (apply dict_get_In; congruence).
      unfold dict_keys in I. rewrite map_map in I. simpl in I.
      rewrite map_app in H. simpl in H.
      apply NoDup_remove_2 in H. apply H, in_or_app. auto. }
    rewrite (dict_set_absent _ _ _ G), (serialize_leaflets_last k ls _ [] G).
    simpl.
    replace (map serialize_item done ++ [(k, map to_dict ls)])
      with (map serialize_item (done ++ [(k, ls)]))
      by (now rewrite map_app).
    rewrite IH; rewrite <- app_assoc; auto.
Qed.

(** C8. [serialize()] of a collection (a dict: no key twice) is the dict
    of the same keys in the same order, each with its Records in their
    stored order, every Record converted by [to_dict] to a dict with
    exactly the six keys [title], [thumbnail], [shop_name], [valid_from],
    [valid_to], [parsed_time]. *)
Theorem C8_serialize_preserves_order :
  forall c : LeafletCollection,
    dict_wf (collection c) ->
    serialize c = inr (map serialize_item (collection c)) /\
    (forall key, dict_get (map serialize_item (collection c)) key
                 = option_map (map to_dict) (dict_get (collection c) key)) /\
    (forall l : Leaflet,
        dict_keys (to_dict l)
        = [py "title"; py "thumbnail"; py "shop_name"; py "valid_from";
           py "valid_to"; py "parsed_time"] /\
        dict_wf (to_dict l)).
Proof.
  intros c H. split; [|split].
  - unfold serialize. apply (serialize_items_map (collection c) []). exact H.
  - intros key. clear H.
    induction (collection c) as [|[k ls] d IH]; simpl; auto.
    destruct (str_eq_dec key k); auto.
  - intros l. split; [reflexivity|].
    unfold dict_wf. simpl.
    repeat (constructor; [simpl; intuition discriminate|]). constructor.
Qed.

(** ** The Field Extractor and the Listing Scraper *)

Lemma extract_all_length name :
  forall els acc w ls w',
    extract_all els name acc w = inr (ls, w') ->
    length ls = length acc + length els.
Proof.
  induction els as [|el els IH]; intros acc w ls w' H; simpl in H.
  - injection H as <- _. simpl. lia.
  - unfold bind in H at 1.
    destruct (extract_leaflet_data el name w) as [e|[l w1]]; [discriminate|].
    apply IH in H. rewrite H, length_app. simpl. lia.
Qed.

(** C5. A listing fragment in which no thumbnail image element matches
    makes the Field Extractor raise ([TypeError], from subscripting
    [None]) whatever the rest of the fragment holds; no Record is made, and
    the loop of the Listing Scraper over any fragments that include it
    ends with an exception too. *)
Theorem C5_missing_thumbnail_raises :
  forall (element : Element) (hypermarket_name : str) (w : World),
    select_one element (py "picture img") = None ->
    extract_leaflet_data element hypermarket_name w = inl TypeError /\
    (forall els acc w',
        In element els ->
        exists e, extract_all els hypermarket_name acc w' = inl e).
Proof.
  intros element name w H.
  assert (E : forall w0, extract_leaflet_data element name w0 = inl TypeError).
  { intros w0. unfold extract_leaflet_data, bind. now rewrite H. }
  split; [apply E|].
  induction els as [|el els IH]; intros acc w' I; simpl in I; [destruct I|].
  simpl. unfold bind. destruct I as [->|I].
  - rewrite E. eauto.
  - destruct (extract_leaflet_data el name w') as [e|[l w1]]; eauto.
Qed.

(** ** The orchestration loop *)

Lemma append_all_total :
  forall calls c, exists c', append_all calls c = inr c'.
Proof.
  induction calls as [|[k d] calls IH]; intros c; simpl; eauto.
  rewrite append_eq. simpl. apply IH.
Qed.

Lemma records_of_cons_same name d calls :
  records_of name ((name, d) :: calls) = d ++ records_of name calls.
Proof.
  unfold records_of. cbn [filter fst].
  destruct (str_eq_dec name name); [reflexivity | congruence].
Qed.

Lemma records_of_cons_other name k d calls :
  name <> k -> records_of name ((k, d) :: calls) = records_of name calls.
Proof.
  intros N. unfold records_of. cbn [filter fst].
  destruct (str_eq_dec name k); [congruence | reflexivity].
Qed.

Lemma records_of_absent name calls :
  ~ In name (map fst calls) -> records_of name calls = [].
Proof.
  induction calls as [|[k d] calls IH]; intros H; auto.
  simpl in H. rewrite records_of_cons_other; auto.
Qed.

(** After a sequence of [append] calls a key holds what it held before,
    followed by the Records of the calls for it, in call order. *)
Lemma append_all_get :
  forall calls c0 c,
    append_all calls c0 = inr c ->
    forall name,
      dict_get (collection c) name
      = match dict_get (collection c0) name with
        | Some l => Some (l ++ records_of name calls)
        | None => if in_dec str_eq_dec name (map fst calls)
                  then Some (records_of name calls) else None
        end.
Proof.
  induction calls as [|[k d] calls IH]; intros c0 c H name; simpl in H.
  - injection H as <-. unfold records_of. simpl.
    destruct (dict_get (collection c0) name); now rewrite ?app_nil_r.
  - rewrite append_eq in H. simpl in H. rewrite (IH _ _ H name). simpl.
    destruct (str_eq_dec name k) as [->|N].
    + rewrite dict_get_set_same, records_of_cons_same.
      destruct (dict_get (collection c0) k); simpl.
      * now rewrite app_assoc.
      * destruct (str_eq_dec k k); [reflexivity | congruence].
    + rewrite dict_get_set_other, records_of_cons_other by assumption.
      destruct (dict_get (collection c0) name); auto.
      destruct (str_eq_dec k name); [congruence|].
      destruct (in_dec str_eq_dec name (map fst calls)); reflexivity.
Qed.

Lemma scrape_links_visits :
  forall links c0 w c w',
    scrape_links links c0 w = inr (c, w') ->
    exists vs, visits links w vs w' /\ append_all (calls_of vs) c0 = inr c.
Proof.
  induction links as [|link links IH]; intros c0 w c w' H; simpl in H.
  - injection H as <- <-. exists []. split; [constructor | reflexivity].
  - unfold bind at 1 in H. unfold scrape_leaflets, bind at 1 in H.
    destruct (http_get (link_url link) w) as [e|[page w0]] eqn:G;
      [discriminate|].
    destruct (extract_all _ _ _ w0) as [e|[leaflets w1]] eqn:X;
      [discriminate|].
    unfold bind at 1 in H. rewrite append_eq in H. simpl in H.
    apply IH in H. destruct H as (vs & V & A).
    eexists (_ :: vs). split.
    + econstructor; eauto.
    + simpl. rewrite append_eq. simpl. exact A.
Qed.

Lemma visits_names links w vs w' :
  visits links w vs w' ->
  map v_name vs = map link_name links /\
  Forall (fun v => length (v_leaflets v) = length (v_fragments v)) vs.
Proof.
  induction 1 as [|link links w page w0 leaflets w1 vs w2 G X V [IH1 IH2]];
    simpl; auto.
  split; [now rewrite IH1|]. constructor; auto. simpl.
  now apply extract_all_length in X.
Qed.

(** C9. A run of [scrape_all_leaflets] that returns fetched the directory
    page and then took one turn per retailer link, in the order of the
    links ([visits]): each turn fetched that retailer's page in the world
    the turn before left, made one Record per listing fragment, and made
    one [append] call with the retailer's name and all those Records. The
    collection returned is the outcome of these calls in that order. A
    retailer is a key of it even where its page had no fragment (its call
    appended the empty list), and its value is empty where no page of that
    name had a fragment. *)
Theorem C9_orchestration_order :
  forall (w : World) (c : LeafletCollection) (w' : World),
    scrape_all_leaflets w = inr (c, w') ->
    exists webpage w0 vs,
      http_get (base_url ++ py "/hypermarkte/") w = inr (webpage, w0) /\
      visits (select webpage HYPERMARKET_LINK_SELECTOR) w0 vs w' /\
      map v_name vs
      = map link_name (select webpage HYPERMARKET_LINK_SELECTOR) /\
      Forall (fun v => length (v_leaflets v) = length (v_fragments v)) vs /\
      append_all (calls_of vs) new_collection = inr c /\
      (forall name,
          dict_get (collection c) name
          = if in_dec str_eq_dec name (map v_name vs)
            then Some (records_of name (calls_of vs)) else None) /\
      (forall v, In v vs -> v_fragments v = [] ->
                 In (v_name v, []) (calls_of vs) /\
                 dict_get (collection c) (v_name v) <> None) /\
      (forall name,
          In name (map v_name vs) ->
          (forall v, In v vs -> v_name v = name -> v_fragments v = []) ->
          dict_get (collection c) name = Some []).
Proof.
  intros w c w' H. unfold scrape_all_leaflets, bind at 1 in H.
  destruct (http_get (base_url ++ py "/hypermarkte/") w)
    as [e|[webpage w0]] eqn:G; [discriminate|].
  apply scrape_links_visits in H. destruct H as (vs & V & A).
  destruct (visits_names _ _ _ _ V) as [Hn Hl].
  assert (Hfst : map fst (calls_of vs) = map v_name vs).
  { unfold calls_of. rewrite map_map. reflexivity. }
  assert (Hget : forall name,
             dict_get (collection c) name
             = if in_dec str_eq_dec name (map v_name vs)
               then Some (records_of name (calls_of vs)) else None).
  { intros name. rewrite (append_all_get _ _ _ A name). simpl.
    now rewrite Hfst. }
  exists webpage, w0, vs. repeat split; auto.
  - rewrite Forall_forall in Hl. specialize (Hl v H).
    rewrite H0 in Hl. destruct (v_leaflets v) eqn:E; [|discriminate].
    unfold calls_of. apply in_map_iff. exists v. now rewrite E.
  - rewrite Hget.
    destruct (in_dec str_eq_dec (v_name v) (map v_name vs)) as [|N];
      [discriminate|].
    destruct N. now apply in_map.
  - intros name I E. rewrite Hget.
    destruct (in_dec str_eq_dec name (map v_name vs)); [|contradiction].
    f_equal. clear - E Hl. rewrite Forall_forall in Hl.
    induction vs as [|v vs IH]; auto. simpl.
    assert (IH' : records_of name (calls_of vs) = []).
    { apply IH; intros; [apply Hl | apply E]; simpl; auto. }
    destruct (str_eq_dec name (v_name v)) as [->|N].
    + rewrite records_of_cons_same, IH'.
      assert (L := Hl v (or_introl eq_refl)).
      rewrite (E v (or_introl eq_refl) eq_refl) in L.
      destruct (v_leaflets v); [reflexivity | discriminate].
    + now rewrite records_of_cons_other.
Qed.

Example scenario_run :
  exists w', scrape_all_leaflets scenario_world = inr (scenario_collection, w').
Proof. eexists. vm_compute. reflexivity. Qed.

(** A fragment with nothing below it. *)
Lemma C5_witness :
  select_one (leaf [] []) (py "picture img") = None /\
  extract_leaflet_data (leaf [] []) (py "ShopA") scenario_world
  = inl TypeError.
Proof.
  split; [reflexivity|].
  apply (C5_missing_thumbnail_raises (leaf [] []) (py "ShopA") scenario_world).
  reflexivity.
Defined.

Lemma scenario_collection_wf : dict_wf (collection scenario_collection).
Proof.
  unfold dict_wf. simpl.
  repeat (constructor; [simpl; intuition discriminate|]). constructor.
Defined.

(** The collection of the scenario. *)
Lemma C8_witness :
  dict_wf (collection scenario_collection) /\
  serialize scenario_collection
  = inr [ (py "ShopA", [to_dict scenario_leaflet]); (py "ShopB", []) ].
Proof.
  split; [exact scenario_collection_wf|].
  apply (C8_serialize_preserves_order scenario_collection
           scenario_collection_wf).
Defined.

(** The run of the scenario: ShopA with one Record, ShopB with none. *)
Lemma C9_witness :
  exists w',
    scrape_all_leaflets scenario_world = inr (scenario_collection, w') /\
    dict_get (collection scenario_collection) (py "ShopB") = Some [] /\
    exists vs,
      map v_name vs = [py "ShopA"; py "ShopB"] /\
      append_all (calls_of vs) new_collection = inr scenario_collection.
Proof.
  assert (E : {w' | scrape_all_leaflets scenario_world
                    = inr (scenario_collection, w')}).
  { eexists. vm_compute. reflexivity. }
  destruct E as [w' E]. exists w'. split; [exact E|].
  split; [reflexivity|].
  destruct (C9_orchestration_order scenario_world scenario_collection w' E)
    as (webpage & w0 & vs & G & _ & N & _ & A & _).
  exists vs. split; [|exact A].
  rewrite N. injection G as <- _. reflexivity.
Defined.

(** * Further properties *)

(** ** The Date-Range Parser *)

Lemma parser_date_found text s e :
  parser_date text = (PyStr s, PyStr e) -> s <> [] ->
  exists p, occurs_at text p s e /\ none_before text p.
Proof.
  intros E N.
  destruct (parser_date_cases text) as [[E' _]|(p & s' & e' & O & B & E')];
    rewrite E' in E; injection E as <- <-.
  - contradiction.
  - eauto.
Qed.

Lemma start_token_length s :
  start_token s = true ->
  length s = 5 \/ length s = 6 \/ length s = 9 \/ length s = 10.
Proof.
  intros H. apply (start_token_sem s []) in H. unfold start_re in H.
  inv_sem; bools; explode; simpl; auto.
Qed.

Lemma end_token_tok e : end_token e = true -> forallb tok e = true.
Proof.
  intros H. apply (end_token_sem e []) in H. unfold end_re in H.
  inv_sem; bools; explode; simpl in *; bools; unfold tok.
  rewrite ?N.eqb_refl; digits; reflexivity.
Qed.

Lemma range_at_length s e t :
  range_at s e t -> 5 <= length s /\ length e = 10 /\ length s + 11 <= length t.
Proof.
  intros (w1 & w2 & r & -> & Hs & _ & _ & He).
  destruct (end_token_shape _ He) as [L _].
  apply start_token_length in Hs.
  rewrite !length_app. simpl. lia.
Qed.

Lemma range_at_head s e t :
  range_at s e t -> exists x t', t = x :: t' /\ is_digit x = true.
Proof.
  intros (w1 & w2 & r & -> & Hs & _).
  destruct (start_token_shape _ Hs) as (x & s' & -> & Hx).
  simpl. eauto.
Qed.

Lemma range_at_app s e t suffix : range_at s e t -> range_at s e (t ++ suffix).
Proof.
  intros (w1 & w2 & r & -> & H). exists w1, w2, (r ++ suffix).
  split; [|exact H]. now rewrite <- !app_assoc.
Qed.

(** X1. A text of fewer than 16 characters has no date range: the parser
    returns two empty strings. *)
Theorem X1_parser_date_short_text :
  forall text : str,
    length text < 16 -> parser_date text = (PyStr [], PyStr []).
Proof.
  intros text L.
  destruct (parser_date_cases text) as [[E _]|(p & s & e & [Hp R] & _)];
    [exact E|].
  exfalso. apply range_at_length in R. rewrite length_skipn in R. lia.
Qed.

(** Fifteen characters: a day of one digit. *)
Lemma X1_witness : parser_date (py "1.03-07.03.2024") = (PyStr [], PyStr []).
Proof.
  apply (X1_parser_date_short_text (py "1.03-07.03.2024")).
  vm_compute. reflexivity.
Defined.

(** X2. The two strings of a found range are made of digits and dots only
    (no whitespace, no hyphen); the end has 10 characters and the start 5,
    6, 9 or 10; the text has at least the two and a hyphen. *)
Theorem X2_parser_date_token_form :
  forall text s e : str,
    parser_date text = (PyStr s, PyStr e) -> s <> [] ->
    forallb tok s = true /\ forallb tok e = true /\
    (length s = 5 \/ length s = 6 \/ length s = 9 \/ length s = 10) /\
    length e = 10 /\
    length s + 1 + length e <= length text.
Proof.
  intros text s e E N.
  destruct (parser_date_found text s e E N) as (p & [Hp R] & _).
  assert (L := range_at_length _ _ _ R). rewrite length_skipn in L.
  destruct R as (w1 & w2 & r & _ & Hs & _ & _ & He).
  split; [now apply start_token_tok|]. split; [now apply end_token_tok|].
  split; [now apply start_token_length|]. lia.
Qed.

Lemma X2_witness :
  forallb tok (py "01.03") = true /\ length (py "07.03.2024") = 10.
Proof.
  destruct (X2_parser_date_token_form
              (py "Angebote 01.03 - 07.03.2024") (py "01.03") (py "07.03.2024"))
    as (Hs & _ & _ & He & _).
  - vm_compute. reflexivity.
  - discriminate.
  - split; [exact Hs | exact He].
Defined.

(** X3. The two strings of a found range, joined by a bare hyphen, parse
    to themselves. *)
Theorem X3_parser_date_reparse :
  forall text s e : str,
    parser_date text = (PyStr s, PyStr e) -> s <> [] ->
    parser_date (s ++ [hyphen] ++ e) = (PyStr s, PyStr e).
Proof.
  intros text s e E N.
  destruct (parser_date_found text s e E N) as (p & [_ R] & _).
  destruct R as (w1 & w2 & r & _ & Hs & _ & _ & He).
  apply parser_date_leftmost with (p := 0).
  - generalize (occurs_at_app [] s [] [] e [] Hs eq_refl eq_refl He).
    simpl. now rewrite app_nil_r.
  - intros q s' e' Hq. inversion Hq.
Qed.

Lemma X3_witness :
  parser_date (py "01.03-07.03.2024") = (PyStr (py "01.03"), PyStr (py "07.03.2024")).
Proof.
  apply (X3_parser_date_reparse (py "Angebote 01.03 - 07.03.2024")
           (py "01.03") (py "07.03.2024")).
  - vm_compute. reflexivity.
  - discriminate.
Defined.

Lemma skipn_app_lt {A} (q : nat) (pre t : list A) :
  q < length pre ->
  exists x rest, In x pre /\ skipn q (pre ++ t) = x :: rest.
Proof.
  revert q. induction pre as [|y pre IH]; intros q L; simpl in L; [lia|].
  destruct q as [|q]; simpl.
  - eauto.
  - destruct (IH q) as (x & rest & I & E); [lia|]. eauto.
Qed.

Lemma skipn_app_ge {A} (q : nat) (pre t : list A) :
  length pre <= q -> skipn q (pre ++ t) = skipn (q - length pre) t.
Proof.
  intros L. rewrite skipn_app, skipn_all2 by assumption. reflexivity.
Qed.

(** X4. Characters before the text change nothing where none of them is a
    digit: a range begins with a digit. *)
Theorem X4_parser_date_digit_free_prefix :
  forall pre text : str,
    forallb (fun c => negb (is_digit c)) pre = true ->
    parser_date (pre ++ text) = parser_date text.
Proof.
  intros pre text H. rewrite forallb_forall in H.
  assert (Hin : forall q s e, occurs_at (pre ++ text) q s e ->
                  length pre <= q /\ occurs_at text (q - length pre) s e).
  { intros q s e [Hq R].
    destruct (le_lt_dec (length pre) q) as [L|L].
    - split; auto. rewrite skipn_app_ge in R by assumption.
      split; auto. rewrite length_app in Hq. lia.
    - exfalso. destruct (skipn_app_lt q pre text L) as (x & rest & I & E).
      rewrite E in R. apply range_at_head in R.
      destruct R as (x' & t' & [= <- <-] & D).
      specialize (H x I). rewrite D in H. discriminate H. }
  destruct (parser_date_cases text) as [[E N]|(p & s & e & O & B & E)];
    rewrite E.
  - destruct (parser_date_cases (pre ++ text))
      as [[E' _]|(p' & s' & e' & O' & _)]; [exact E'|].
    apply Hin in O'. destruct (N _ _ _ (proj2 O')).
  - apply parser_date_leftmost with (p := length pre + p).
    + destruct O as [Hp R]. split.
      * rewrite length_app. lia.
      * rewrite skipn_app_ge by lia.
        now replace (length pre + p - length pre) with p by lia.
    + intros q s' e' Hq O'. apply Hin in O'. destruct O' as [L O'].
      apply (B (q - length pre) s' e'); [lia | exact O'].
Qed.

Lemma X4_witness :
  parser_date (py "Angebote " ++ py "01.03 - 07.03.2024")
  = parser_date (py "01.03 - 07.03.2024").
Proof.
  apply (X4_parser_date_digit_free_prefix
           (py "Angebote ") (py "01.03 - 07.03.2024")).
  vm_compute. reflexivity.
Defined.

(** A token is not a proper suffix of a token. *)
Ltac clash :=
  solve [ repeat match goal with
            | H : is_digit dot = true |- _ =>
                rewrite (proj1 sep_chars) in H; discriminate H
            | H : _ :: _ = _ :: _ |- _ => injection H as ? H; subst
            | H : [] = _ :: _ |- _ => discriminate H
            | H : _ :: _ = [] |- _ => discriminate H
            end ].

Lemma start_token_suffix a s :
  start_token (a ++ s) = true -> start_token s = true -> a = [].
Proof.
  intros Hu Hs.
  assert (E : id (exists u, u = a ++ s /\ start_token u = true)) by (red; eauto).
  clear Hu. destruct E as (u & E & Hu). change (id (u = a ++ s)) in E.
  apply (start_token_sem u []) in Hu. apply (start_token_sem s []) in Hs.
  unfold start_re in Hu, Hs. inv_sem; bools; explode; simpl in *; bools.
  all: unfold id in E.
  all: destruct a as [|? a]; [reflexivity | exfalso].
  all: simpl in E; injection E as ? E; subst.
  all: repeat (destruct a as [|? a]; simpl in E;
               [clash | injection E as ? E; subst]).
  all: try clash.
  all: destruct a; simpl in E; discriminate E.
Qed.

Lemma tok_not_hyphen x : tok x = true -> not_hyphen x = true.
Proof.
  unfold not_hyphen. intros H.
  destruct (N.eqb_spec x hyphen) as [E|]; [|reflexivity].
  rewrite E in H. vm_compute in H. discriminate H.
Qed.

Lemma space_not_hyphen x : is_space x = true -> not_hyphen x = true.
Proof.
  unfold not_hyphen. intros H.
  destruct (N.eqb_spec x hyphen) as [E|]; [|reflexivity].
  rewrite E in H. vm_compute in H. discriminate H.
Qed.

Lemma forallb_impl {A} (p q : A -> bool) (l : list A) :
  (forall x, p x = true -> q x = true) ->
  forallb p l = true -> forallb q l = true.
Proof.
  intros I H. rewrite forallb_forall in *. auto.
Qed.

(** The prefix before the one hyphen of a string. *)
Lemma one_hyphen :
  forall u v u2 v2 : str,
    forallb not_hyphen u = true -> forallb not_hyphen v = true ->
    u ++ [hyphen] ++ v = u2 ++ [hyphen] ++ v2 -> u = u2.
Proof.
  induction u as [|x u IH]; intros v [|x2 u2] v2 Hu Hv E; simpl in *.
  - reflexivity.
  - injection E as <- E. subst v. rewrite forallb_app in Hv.
    apply andb_prop in Hv. destruct Hv as [_ Hv]. discriminate Hv.
  - injection E as -> _. discriminate Hu.
  - injection E as <- E. apply andb_prop in Hu. destruct Hu as [_ Hu].
    f_equal. eauto.
Qed.

(** A string ending with a token, before a run of whitespace: the run is
    determined. *)
Lemma token_then_spaces :
  forall a s s2 w w2 : str,
    s <> [] -> s2 <> [] ->
    forallb tok s = true -> forallb tok s2 = true ->
    spaces w = true -> spaces w2 = true ->
    s ++ w = (a ++ s2) ++ w2 -> s = a ++ s2.
Proof.
  intros a s s2 w w2 N N2 T T2 W W2 E.
  apply (f_equal (@rev char)) in E. rewrite !rev_app_distr in E.
  assert (Hrev : forall l : str, spaces l = true -> forallb is_space (rev l) = true).
  { intros l H. unfold spaces in H. rewrite forallb_forall in *.
    intros x I. apply H. now apply in_rev. }
  assert (Hhd : forall (l : str) X, l <> [] -> forallb tok l = true ->
            hd_error (rev l ++ X) <> None /\
            forall x, hd_error (rev l ++ X) = Some x -> is_space x = false).
  { intros l X Hl Ht.
    destruct (rev l) as [|y r] eqn:R.
    - apply (f_equal (@rev char)) in R. rewrite rev_involutive in R.
      contradiction.
    - simpl. split; [discriminate|]. intros x [= <-].
      assert (I : In y l) by (apply in_rev; rewrite R; simpl; auto).
      rewrite forallb_forall in Ht. specialize (Ht y I).
      destruct (is_space y) eqn:S; auto.
      apply space_not_tok in S. congruence. }
  rewrite <- (app_nil_r (rev s)) in E.
  destruct (Hhd s [] N T) as [A1 A2].
  destruct (Hhd s2 (rev a) N2 T2) as [B1 B2].
  apply span_unique with (p := is_space) in E; auto.
  destruct E as [_ E]. rewrite app_nil_r, <- rev_app_distr in E.
  apply (f_equal (@rev char)) in E. now rewrite !rev_involutive in E.
Qed.

Lemma start_token_nonempty s : start_token s = true -> s <> [].
Proof.
  intros H. destruct (start_token_shape _ H) as (x & s' & -> & _).
  discriminate.
Qed.

(** A range that begins before another one ends before the text does. *)
Lemma range_at_before s e tp s' e' (a suffix : str) :
  a <> [] ->
  range_at s e tp -> range_at s' e' ((a ++ tp) ++ suffix) ->
  range_at s' e' (a ++ tp).
Proof.
  intros Na R (w1' & w2' & r' & E' & Hs' & H1' & H2' & He').
  replace (s' ++ w1' ++ [hyphen] ++ w2' ++ e' ++ r')
    with ((s' ++ w1' ++ [hyphen] ++ w2' ++ e') ++ r') in E'
    by (now rewrite <- !app_assoc).
  apply app_eq_app in E'. destruct E' as (l & [[E1 E2]|[E1 E2]]).
  - exists w1', w2', l. rewrite E1, <- !app_assoc. auto.
  - exfalso.
    destruct R as (w1 & w2 & r & -> & Hs & H1 & H2 & He).
    assert (U : s' ++ w1' = (a ++ s) ++ w1).
    { apply one_hyphen with (v := w2' ++ e')
                            (v2 := w2 ++ e ++ r ++ l).
      - rewrite forallb_app. apply andb_true_intro. split.
        + apply forallb_impl with (p := tok); auto using tok_not_hyphen.
          now apply start_token_tok.
        + apply forallb_impl with (p := is_space);
            auto using space_not_hyphen.
      - rewrite forallb_app. apply andb_true_intro. split.
        + apply forallb_impl with (p := is_space);
            auto using space_not_hyphen.
        + apply forallb_impl with (p := tok); auto using tok_not_hyphen.
          now apply end_token_tok.
      - rewrite <- !app_assoc in E1. rewrite <- !app_assoc.
        simpl in *. exact E1. }
    apply token_then_spaces in U;
      auto using start_token_nonempty, start_token_tok.
    rewrite U in Hs'. apply Na. exact (start_token_suffix a s Hs' Hs).
Qed.

(** X5. Once a range is found, text added after the text does not change
    the result. *)
Theorem X5_parser_date_suffix_stable :
  forall text suffix s e : str,
    parser_date text = (PyStr s, PyStr e) -> s <> [] ->
    parser_date (text ++ suffix) = (PyStr s, PyStr e).
Proof.
  intros text suffix s e E N.
  destruct (parser_date_found text s e E N) as (p & [Hp R] & B).
  apply parser_date_leftmost with (p := p).
  - split; [rewrite length_app; lia|].
    rewrite skipn_app. replace (p - length text) with 0 by lia.
    simpl. now apply range_at_app.
  - intros q s' e' Hq [_ R'].
    apply (B q s' e' Hq). split; [lia|].
    rewrite skipn_app in R'. replace (q - length text) with 0 in R' by lia.
    simpl in R'.
    assert (S : skipn q text
                = firstn (p - q) (skipn q text) ++ skipn p text).
    { rewrite <- (firstn_skipn (p - q) (skipn q text)) at 1.
      rewrite skipn_skipn. now replace (p - q + q) with p by lia. }
    rewrite S in R' |- *.
    apply range_at_before with (s := s) (e := e) (suffix := suffix); auto.
    intros Z. apply (f_equal (@length char)) in Z.
    rewrite length_firstn, length_skipn in Z. simpl in Z. lia.
Qed.

Lemma X5_witness :
  parser_date (py "01.03 - 07.03.2024" ++ py " und 08.03 - 14.03.2024")
  = (PyStr (py "01.03"), PyStr (py "07.03.2024")).
Proof.
  apply (X5_parser_date_suffix_stable (py "01.03 - 07.03.2024")
           (py " und 08.03 - 14.03.2024")).
  - vm_compute. reflexivity.
  - discriminate.
Defined.

(** ** The Field Extractor *)

(** X6. A fragment whose thumbnail image element has no [src] attribute
    makes the Field Extractor raise [KeyError], whatever its date element
    is. *)
Theorem X6_missing_src_raises :
  forall (element img : Element) (hypermarket_name : str) (w : World),
    select_one element (py "picture img") = Some img ->
    dict_get (attrs img) (py "src") = None ->
    extract_leaflet_data element hypermarket_name w = inl KeyError.
Proof.
  intros element img name w H1 H2.
  unfold extract_leaflet_data, bind. rewrite H1, H2. reflexivity.
Qed.

Lemma X6_witness :
  extract_leaflet_data
    (node [(py "picture img", [leaf [] [(py "alt", py "Prospekt")]])])
    (py "ShopA") scenario_world
  = inl KeyError.
Proof.
  apply (X6_missing_src_raises
           (node [(py "picture img", [leaf [] [(py "alt", py "Prospekt")]])])
           (leaf [] [(py "alt", py "Prospekt")])); reflexivity.
Defined.

(** X7. A fragment with a thumbnail but without a date element makes the
    Field Extractor raise [AttributeError]; the clock is not read. *)
Theorem X7_missing_date_raises :
  forall (element : Element) (src hypermarket_name : str) (w : World),
    fragment_thumbnail element = Some src ->
    select_one element DATE_SELECTOR = None ->
    extract_leaflet_data element hypermarket_name w = inl AttributeError.
Proof.
  intros element src name w H1 H2.
  unfold extract_leaflet_data, bind. unfold fragment_thumbnail in H1.
  destruct (select_one element (py "picture img")); [|discriminate].
  rewrite H1, H2. reflexivity.
Qed.

Lemma X7_witness :
  extract_leaflet_data
    (node [(py "picture img", [leaf [] [(py "src", py "/img1.jpg")]])])
    (py "ShopA") scenario_world
  = inl AttributeError.
Proof.
  apply (X7_missing_date_raises
           (node [(py "picture img", [leaf [] [(py "src", py "/img1.jpg")]])])
           (py "/img1.jpg")); reflexivity.
Defined.

Lemma later_0 w : later w 0 0 = w.
Proof. destruct w. unfold later. simpl. now rewrite !Nat.add_0_r. Qed.

Lemma later_later w r t r' t' :
  later (later w r t) r' t' = later w (r + r') (t + t').
Proof. unfold later. simpl. now rewrite !Nat.add_assoc. Qed.

Lemma extract_leaflet_data_spec :
  forall (element : Element) (hypermarket_name : str) (w : World)
         (leaflet : Leaflet) (w' : World),
    extract_leaflet_data element hypermarket_name w = inr (leaflet, w') <->
    exists src date_text,
      fragment_thumbnail element = Some src /\
      fragment_date_text element = Some date_text /\
      leaflet = leaflet_of hypermarket_name src date_text
                  (wall_clock w (clock_reads w)) /\
      w' = later w 0 1.
Proof.
  intros element name w leaflet w'.
  unfold extract_leaflet_data, fragment_thumbnail, fragment_date_text, bind.
  destruct (select_one element (py "picture img")) as [img|].
  - destruct (dict_get (attrs img) (py "src")) as [src|]; simpl.
    + destruct (select_one element DATE_SELECTOR) as [small|]; simpl.
      * unfold leaflet_of, later.
        destruct (parser_date (text small)) as [start end_] eqn:P. simpl.
        rewrite Nat.add_0_r, Nat.add_1_r. split.
        -- intros [= <- <-]. exists src, (text small). rewrite P. auto.
        -- intros (src' & dt & [= <-] & [= <-] & -> & ->).
           rewrite P. reflexivity.
      * split; [discriminate|]. intros (? & ? & _ & H & _). discriminate H.
    + split; [discriminate|]. intros (? & ? & H & _). discriminate H.
  - simpl. split; [discriminate|]. intros (? & ? & H & _). discriminate H.
Qed.

(** X8. The Field Extractor returns exactly when the fragment has a
    thumbnail with a [src] and a date element. The Record then has the
    title [Prospekt], that [src], the retailer's name, the two strings the
    parser gives for the date text (both empty where it finds no range:
    this is no failure) and the time of one reading of the clock; nothing
    else happens to the world. *)
Theorem X8_extract_leaflet_data_returns :
  forall (element : Element) (hypermarket_name : str) (w : World)
         (leaflet : Leaflet) (w' : World),
    extract_leaflet_data element hypermarket_name w = inr (leaflet, w') <->
    exists src date_text,
      fragment_thumbnail element = Some src /\
      fragment_date_text element = Some date_text /\
      leaflet = leaflet_of hypermarket_name src date_text
                  (wall_clock w (clock_reads w)) /\
      w' = later w 0 1.
Proof. exact extract_leaflet_data_spec. Qed.

(** ** The Listing Scraper *)

Lemma extract_all_spec name :
  forall els acc w ls w',
    extract_all els name acc w = inr (ls, w') <->
    exists news,
      leaflets_from name (wall_clock w) (clock_reads w) els = Some news /\
      ls = acc ++ news /\ w' = later w 0 (length news).
Proof.
  induction els as [|el els IH]; intros acc w ls w'; simpl.
  - unfold ret. split.
    + intros [= <- <-]. exists []. now rewrite app_nil_r, later_0.
    + intros (news & [= <-] & -> & ->). now rewrite app_nil_r, later_0.
  - unfold bind at 1.
    destruct (extract_leaflet_data el name w) as [e|[l w1]] eqn:X.
    + split; [discriminate|]. intros (news & H & _).
      destruct (fragment_thumbnail el) as [src|] eqn:T; [|discriminate].
      destruct (fragment_date_text el) as [dt|] eqn:D; [|discriminate].
      assert (extract_leaflet_data el name w
              = inr (leaflet_of name src dt (wall_clock w (clock_reads w)),
                     later w 0 1))
        by (apply extract_leaflet_data_spec; exists src, dt; auto).
      congruence.
    + apply extract_leaflet_data_spec in X.
      destruct X as (src & dt & T & D & -> & ->).
      rewrite T, D, IH. simpl. rewrite Nat.add_1_r.
      split.
      * intros (news & H & -> & ->). rewrite H.
        eexists. split; [reflexivity|]. rewrite <- app_assoc. simpl.
        split; [reflexivity|]. now rewrite later_later.
      * intros (news & H & -> & ->).
        destruct (leaflets_from name (wall_clock w) (S (clock_reads w)) els)
          as [news'|]; [|discriminate].
        injection H as <-. exists news'. rewrite <- app_assoc. simpl.
        split; [reflexivity|]. split; [reflexivity|].
        now rewrite later_later.
Qed.

Lemma http_get_spec url w :
  http_get url w
  = match web w (requests w) url with
    | inl e => inl e
    | inr page => inr (page, later w 1 0)
    end.
Proof.
  unfold http_get, later. now rewrite Nat.add_1_r, Nat.add_0_r.
Qed.

Lemma scrape_leaflets_spec url name w ls w' :
  scrape_leaflets url name w = inr (ls, w') <->
  exists page,
    web w (requests w) url = inr page /\
    leaflets_from name (wall_clock w) (clock_reads w)
      (select page LEAFLET_ELEMENT_SELECTOR) = Some ls /\
    w' = later w 1 (length ls).
Proof.
  unfold scrape_leaflets, bind. rewrite http_get_spec.
  destruct (web w (requests w) url) as [e|page].
  - split; [discriminate|]. intros (? & H & _). discriminate H.
  - rewrite extract_all_spec. simpl. rewrite Nat.add_0_r. split.
    + intros (news & H & -> & ->). exists page. rewrite later_later. auto.
    + intros (page' & [= <-] & H & ->). exists ls. rewrite later_later. auto.
Qed.

(** X9. The Listing Scraper returns exactly when the fetch returns a page
    and every listing fragment of the page has its thumbnail and its date
    element. It then returns one Record per fragment, in document order,
    each with the title [Prospekt], the retailer's name, the fragment's
    thumbnail and parsed dates, and the time of its own reading of the
    clock; the run has made one request and as many readings as Records. *)
Theorem X9_scrape_leaflets_returns :
  forall (url hypermarket_name : str) (w : World)
         (leaflets : list Leaflet) (w' : World),
    scrape_leaflets url hypermarket_name w = inr (leaflets, w') <->
    exists page,
      web w (requests w) url = inr page /\
      leaflets_from hypermarket_name (wall_clock w) (clock_reads w)
        (select page LEAFLET_ELEMENT_SELECTOR) = Some leaflets /\
      w' = later w 1 (length leaflets).
Proof. exact scrape_leaflets_spec. Qed.

(** ** The orchestration loop, continued *)

Lemma scrape_links_app :
  forall links1 links2 c w,
    scrape_links (links1 ++ links2) c w
    = match scrape_links links1 c w with
      | inl e => inl e
      | inr (c1, w1) => scrape_links links2 c1 w1
      end.
Proof.
  induction links1 as [|link links1 IH]; intros links2 c w; simpl; auto.
  unfold bind.
  destruct (scrape_leaflets (link_url link) (link_name link) w)
    as [e|[ls w0]]; auto.
  destruct (lift (append c (link_name link) ls) w0) as [e|[c0 w1]]; auto.
Qed.

Lemma scrape_all_leaflets_first_failure :
  forall (w : World) (webpage : Element) (links1 links2 : list Element)
         (link : Element) (c1 : LeafletCollection) (w1 : World) (e : exn),
    web w (requests w) (base_url ++ py "/hypermarkte/") = inr webpage ->
    select webpage HYPERMARKET_LINK_SELECTOR = links1 ++ link :: links2 ->
    scrape_links links1 new_collection (later w 1 0) = inr (c1, w1) ->
    scrape_leaflets (link_url link) (link_name link) w1 = inl e ->
    scrape_all_leaflets w = inl e.
Proof.
  intros w webpage links1 links2 link c1 w1 e G S L F.
  unfold scrape_all_leaflets, bind at 1.
  rewrite http_get_spec, G, S, scrape_links_app, L. simpl.
  unfold bind at 1. now rewrite F.
Qed.

(** X10. The run stops at the first retailer whose Listing Scraper raises:
    [scrape_all_leaflets] raises that exception, whatever the retailers
    before it yielded and whatever links follow. *)
Theorem X10_first_failure_aborts :
  forall (w : World) (webpage : Element) (links1 links2 : list Element)
         (link : Element) (c1 : LeafletCollection) (w1 : World) (e : exn),
    web w (requests w) (base_url ++ py "/hypermarkte/") = inr webpage ->
    select webpage HYPERMARKET_LINK_SELECTOR = links1 ++ link :: links2 ->
    scrape_links links1 new_collection (later w 1 0) = inr (c1, w1) ->
    scrape_leaflets (link_url link) (link_name link) w1 = inl e ->
    scrape_all_leaflets w = inl e.
Proof. exact scrape_all_leaflets_first_failure. Qed.

(** The web goes down after the directory page: the first retailer fails. *)
Lemma X10_witness : scrape_all_leaflets (offline_after 1) = inl RequestException.
Proof.
  eapply (X10_first_failure_aborts (offline_after 1) _ []).
  - reflexivity.
  - reflexivity.
  - reflexivity.
  - reflexivity.
Defined.

Lemma leaflets_from_Forall name clock :
  forall els n ls,
    leaflets_from name clock n els = Some ls ->
    Forall (fun l => shop_name l = name /\ title l = py "Prospekt") ls.
Proof.
  induction els as [|el els IH]; intros n ls H; simpl in H.
  - injection H as <-. constructor.
  - destruct (fragment_thumbnail el); [|discriminate].
    destruct (fragment_date_text el); [|discriminate].
    destruct (leaflets_from name clock (S n) els) eqn:L; [|discriminate].
    injection H as <-. constructor; eauto.
Qed.

Lemma visits_spec links w vs w' :
  visits links w vs w' ->
  w' = later w (length links) (length (concat (map v_leaflets vs))) /\
  Forall (fun v => Forall (fun l => shop_name l = v_name v /\
                                    title l = py "Prospekt")
                     (v_leaflets v)) vs /\
  (forall i link,
      nth_error links i = Some link ->
      exists page, web w (requests w + i) (link_url link) = inr page).
Proof.
  induction 1 as [w|link links w page w0 leaflets w1 vs w2 G X V IH].
  - split; [now rewrite later_0|]. split; [constructor|].
    intros [|i] link H; discriminate H.
  - rewrite http_get_spec in G.
    destruct (web w (requests w) (link_url link)) as [e|page'] eqn:W;
      [discriminate|]. injection G as -> <-.
    apply extract_all_spec in X. destruct X as (news & L & E & ->).
    simpl in E. subst news. rewrite later_later in IH. simpl in IH.
    destruct IH as (-> & F & U). split; [|split].
    + rewrite later_later. simpl. rewrite length_app. reflexivity.
    + constructor; auto. simpl. eapply leaflets_from_Forall; eauto.
    + intros [|i] l H; simpl in H.
      * injection H as <-. rewrite Nat.add_0_r. eauto.
      * destruct (U i l H) as (p & Hp). exists p. simpl in Hp.
        replace (requests w + S i) with (requests w + 1 + 0 + i) by lia.
        exact Hp.
Qed.

Lemma total_dict_set (d : dict (list Leaflet)) k data :
  length (concat (map snd
            (dict_set d k (match dict_get d k with
                           | Some l => l ++ data
                           | None => data
                           end))))
  = length (concat (map snd d)) + length data.
Proof.
  induction d as [|[k' l'] d IH]; simpl.
  - rewrite app_nil_r. reflexivity.
  - destruct (str_eq_dec k k') as [->|N]; simpl.
    + rewrite !length_app. lia.
    + rewrite !length_app, IH. lia.
Qed.

Lemma append_all_total_leaflets :
  forall calls c0 c,
    append_all calls c0 = inr c ->
    total_leaflets c = total_leaflets c0 + length (concat (map snd calls)).
Proof.
  induction calls as [|[k data] calls IH]; intros c0 c H; simpl in H.
  - injection H as <-. simpl. lia.
  - rewrite append_eq in H. simpl in H. apply IH in H. rewrite H.
    unfold total_leaflets at 1. simpl. rewrite total_dict_set, length_app.
    unfold total_leaflets. lia.
Qed.

Lemma scrape_all_leaflets_visits w c w' :
  scrape_all_leaflets w = inr (c, w') ->
  exists webpage vs,
    web w (requests w) (base_url ++ py "/hypermarkte/") = inr webpage /\
    visits (select webpage HYPERMARKET_LINK_SELECTOR) (later w 1 0) vs w' /\
    append_all (calls_of vs) new_collection = inr c.
Proof.
  intros H. unfold scrape_all_leaflets, bind at 1 in H.
  rewrite http_get_spec in H.
  destruct (web w (requests w) (base_url ++ py "/hypermarkte/"))
    as [e|webpage]; [discriminate|].
  apply scrape_links_visits in H. destruct H as (vs & V & A). eauto.
Qed.

(** X11. A run that returns made exactly one request for the directory
    page and then one per retailer link, the [i]-th of them for the URL of
    the [i]-th link (the base URL followed by its [href], or by [None]
    where it has none), and read the clock once per Record of the
    collection returned; the web and the clock are as before. *)
Theorem X11_requests_of_a_run :
  forall (w : World) (c : LeafletCollection) (w' : World),
    scrape_all_leaflets w = inr (c, w') ->
    exists webpage,
      web w (requests w) (base_url ++ py "/hypermarkte/") = inr webpage /\
      w' = later w (1 + length (select webpage HYPERMARKET_LINK_SELECTOR))
             (total_leaflets c) /\
      (forall i link,
          nth_error (select webpage HYPERMARKET_LINK_SELECTOR) i = Some link ->
          exists page,
            web w (requests w + 1 + i)
              (base_url ++ format (tag_get link (py "href"))) = inr page).
Proof.
  intros w c w' H.
  destruct (scrape_all_leaflets_visits w c w' H) as (webpage & vs & G & V & A).
  exists webpage. split; [exact G|].
  apply visits_spec in V. destruct V as (-> & _ & U).
  apply append_all_total_leaflets in A.
  split.
  - rewrite later_later, A. simpl. f_equal.
    unfold calls_of. rewrite map_map. reflexivity.
  - intros i link Hl.
    destruct (U i link Hl) as (page & Hp). exists page. exact Hp.
Qed.

Lemma X11_witness :
  exists w',
    scrape_all_leaflets scenario_world = inr (scenario_collection, w') /\
    requests w' = 3 /\ clock_reads w' = 1.
Proof.
  assert (E : {w' | scrape_all_leaflets scenario_world
                    = inr (scenario_collection, w')}).
  { eexists. vm_compute. reflexivity. }
  destruct E as [w' E]. exists w'. split; [exact E|].
  destruct (X11_requests_of_a_run scenario_world scenario_collection w' E)
    as (webpage & G & -> & _).
  injection G as <-. split; reflexivity.
Defined.

(** ** [str.strip()] *)

Lemma lstrip_head s x : hd_error (lstrip s) = Some x -> is_space x = false.
Proof.
  induction s as [|y s IH]; simpl; [discriminate|].
  destruct (is_space y) eqn:S; auto. simpl. now intros [= <-].
Qed.

Lemma lstrip_suffix s : exists pre, s = pre ++ lstrip s.
Proof.
  induction s as [|y s [pre IH]]; simpl.
  - now exists [].
  - destruct (is_space y).
    + exists (y :: pre). simpl. now rewrite <- IH.
    + now exists [].
Qed.

Lemma strip_trimmed s :
  (forall x, hd_error (strip s) = Some x -> is_space x = false) /\
  (forall x, hd_error (rev (strip s)) = Some x -> is_space x = false).
Proof.
  unfold strip. split; intros x H.
  - destruct (lstrip_suffix (rev (lstrip s))) as [pre E].
    apply (f_equal (@rev char)) in E.
    rewrite rev_involutive, rev_app_distr in E.
    destruct (rev (lstrip (rev (lstrip s)))) as [|y r]; [discriminate|].
    simpl in H. injection H as ->. apply (lstrip_head s). now rewrite E.
  - rewrite rev_involutive in H. now apply lstrip_head in H.
Qed.

(** ** The collection a run returns *)

Lemma in_dec_contains {V} (d : dict V) k :
  (if in_dec str_eq_dec k (dict_keys d) then true else false)
  = dict_contains d k.
Proof.
  unfold dict_contains.
  destruct (in_dec str_eq_dec k (dict_keys d)) as [I|N];
    destruct (dict_get d k) eqn:G; auto.
  - apply dict_get_In in I. congruence.
  - destruct N. apply dict_get_In. congruence.
Qed.

Lemma append_all_wf :
  forall calls c0 c,
    append_all calls c0 = inr c ->
    dict_wf (collection c0) -> dict_wf (collection c).
Proof.
  induction calls as [|[k data] calls IH]; intros c0 c H W; simpl in H.
  - now injection H as <-.
  - rewrite append_eq in H. simpl in H. apply IH in H; auto.
    simpl. now apply dict_wf_set.
Qed.

Lemma append_all_keys :
  forall calls c0 c,
    append_all calls c0 = inr c ->
    dict_keys (collection c)
    = keys_after (dict_keys (collection c0)) (map fst calls).
Proof.
  induction calls as [|[k data] calls IH]; intros c0 c H; simpl in H.
  - now injection H as <-.
  - rewrite append_eq in H. simpl in H. apply IH in H. rewrite H. simpl.
    rewrite dict_keys_set, <- in_dec_contains.
    now destruct (in_dec str_eq_dec k (dict_keys (collection c0))).
Qed.

Lemma keys_after_In k :
  forall names keys,
    In k (keys_after keys names) <-> In k keys \/ In k names.
Proof.
  induction names as [|n names IH]; intros keys; simpl.
  - tauto.
  - rewrite IH. destruct (in_dec str_eq_dec n keys) as [I|N].
    + split; [tauto|]. intros [H|[<-|H]]; auto.
    + rewrite in_app_iff. simpl. tauto.
Qed.

Lemma records_of_In name calls l :
  In l (records_of name calls) ->
  exists data, In (name, data) calls /\ In l data.
Proof.
  unfold records_of. induction calls as [|[k d] calls IH]; simpl.
  - intros [].
  - destruct (str_eq_dec name k) as [->|N]; simpl.
    + rewrite in_app_iff. intros [H|H]; eauto.
      destruct (IH H) as (data & I & J). eauto.
    + intros H. destruct (IH H) as (data & I & J). eauto.
Qed.

(** X12. The collection a run returns is a dict (no key twice) in which
    every Record stands under the key that is its [shop_name] and has the
    title [Prospekt], and no key begins or ends with whitespace. *)
Theorem X12_collection_of_a_run :
  forall (w : World) (c : LeafletCollection) (w' : World),
    scrape_all_leaflets w = inr (c, w') ->
    dict_wf (collection c) /\
    (forall key leaflets leaflet,
        dict_get (collection c) key = Some leaflets ->
        In leaflet leaflets ->
        shop_name leaflet = key /\ title leaflet = py "Prospekt") /\
    (forall key x,
        In key (dict_keys (collection c)) ->
        hd_error key = Some x \/ hd_error (rev key) = Some x ->
        is_space x = false).
Proof.
  intros w c w' H.
  destruct (scrape_all_leaflets_visits w c w' H) as (webpage & vs & G & V & A).
  destruct (visits_names _ _ _ _ V) as [Hn _].
  apply visits_spec in V. destruct V as (_ & F & _).
  split; [|split].
  - apply (append_all_wf _ _ _ A). constructor.
  - intros key ls l Hk Hl. rewrite (append_all_get _ _ _ A key) in Hk.
    simpl in Hk.
    destruct (in_dec str_eq_dec key (map fst (calls_of vs)));
      [|discriminate].
    injection Hk as <-. apply records_of_In in Hl.
    destruct Hl as (data & I & J). unfold calls_of in I.
    apply in_map_iff in I. destruct I as (v & [= <- <-] & Iv).
    rewrite Forall_forall in F. specialize (F v Iv).
    rewrite Forall_forall in F. now apply F.
  - intros key x I Hx. rewrite (append_all_keys _ _ _ A) in I.
    apply keys_after_In in I. destruct I as [[]|I].
    unfold calls_of in I. rewrite map_map in I.
    change (In key (map v_name vs)) in I.
    rewrite Hn in I. apply in_map_iff in I.
    destruct I as (link & <- & _). unfold link_name in Hx.
    destruct (strip_trimmed (text link)) as [T1 T2].
    destruct Hx; [apply T1 | apply T2]; assumption.
Qed.

Lemma X12_witness :
  dict_wf (collection scenario_collection) /\
  shop_name scenario_leaflet = py "ShopA".
Proof.
  assert (E : {w' | scrape_all_leaflets scenario_world
                    = inr (scenario_collection, w')}).
  { eexists. vm_compute. reflexivity. }
  destruct E as [w' E].
  destruct (X12_collection_of_a_run scenario_world scenario_collection w' E)
    as (W & S & _).
  split; [exact W|].
  apply (S (py "ShopA") [scenario_leaflet] scenario_leaflet);
    [reflexivity | simpl; auto].
Defined.

(** X13. The keys of the collection a run returns are the names of the
    retailer links (their stripped texts) in the order of their first
    occurrence on the directory page: each name once, in that order. *)
Theorem X13_keys_in_link_order :
  forall (w : World) (c : LeafletCollection) (w' : World),
    scrape_all_leaflets w = inr (c, w') ->
    exists webpage,
      web w (requests w) (base_url ++ py "/hypermarkte/") = inr webpage /\
      dict_keys (collection c)
      = keys_after []
          (map (fun link => strip (text link))
               (select webpage HYPERMARKET_LINK_SELECTOR)) /\
      (forall key,
          In key (dict_keys (collection c)) <->
          exists link,
            In link (select webpage HYPERMARKET_LINK_SELECTOR) /\
            key = strip (text link)).
Proof.
  intros w c w' H.
  destruct (scrape_all_leaflets_visits w c w' H) as (webpage & vs & G & V & A).
  destruct (visits_names _ _ _ _ V) as [Hn _].
  assert (K : dict_keys (collection c)
              = keys_after []
                  (map (fun link => strip (text link))
                       (select webpage HYPERMARKET_LINK_SELECTOR))).
  { rewrite (append_all_keys _ _ _ A). simpl. f_equal.
    unfold calls_of. rewrite map_map. exact Hn. }
  exists webpage. split; [exact G|]. split; [exact K|].
  intros key. rewrite K, keys_after_In, in_map_iff. simpl. split.
  - intros [[]|(link & <- & I)]. eauto.
  - intros (link & I & ->). right. eauto.
Qed.

Lemma X13_witness :
  dict_keys (collection scenario_collection) = [py "ShopA"; py "ShopB"].
Proof.
  assert (E : {w' | scrape_all_leaflets scenario_world
                    = inr (scenario_collection, w')}).
  { eexists. vm_compute. reflexivity. }
  destruct E as [w' E].
  destruct (X13_keys_in_link_order scenario_world scenario_collection w' E)
    as (webpage & G & K & _).
  rewrite K. injection G as <-. reflexivity.
Defined.

(** ** [LeafletCollection], continued *)

Lemma dict_set_same {V} (d : dict V) k v :
  dict_get d k = Some v -> dict_set d k v = d.
Proof.
  induction d as [|[k' v'] d IH]; simpl; [discriminate|].
  destruct (str_eq_dec k k') as [->|N].
  - now intros [= ->].
  - intros H. now rewrite IH.
Qed.

Lemma dict_set_comm {V} (d : dict V) k1 k2 v1 v2 :
  k1 <> k2 ->
  dict_contains d k1 || dict_contains d k2 = true ->
  dict_set (dict_set d k1 v1) k2 v2 = dict_set (dict_set d k2 v2) k1 v1.
Proof.
  intros N. unfold dict_contains.
  induction d as [|[k v] d IH]; simpl; [discriminate|].
  destruct (str_eq_dec k1 k) as [->|N1]; destruct (str_eq_dec k2 k) as [->|N2];
    simpl; try congruence.
  - intros _. destruct (str_eq_dec k2 k); [congruence|].
    destruct (str_eq_dec k k); [reflexivity | congruence].
  - intros _. destruct (str_eq_dec k1 k); [congruence|].
    destruct (str_eq_dec k k); [reflexivity | congruence].
  - intros H. destruct (str_eq_dec k1 k); [congruence|].
    destruct (str_eq_dec k2 k); [congruence|]. now rewrite IH.
Qed.

Lemma keys_after_prefix :
  forall names keys, exists more, keys_after keys names = keys ++ more.
Proof.
  induction names as [|n names IH]; intros keys; simpl.
  - exists []. now rewrite app_nil_r.
  - destruct (in_dec str_eq_dec n keys).
    + apply IH.
    + destruct (IH (keys ++ [n])) as [more ->].
      exists (n :: more). now rewrite <- app_assoc.
Qed.

(** X14. Any sequence of [append] calls on a collection succeeds and only
    adds: the collection stays a dict, its keys stay where they are (new
    ones follow), and every key keeps its Records as the beginning of what
    it holds afterwards. *)
Theorem X14_appends_only_add :
  forall (calls : list (str * list Leaflet)) (c : LeafletCollection),
    dict_wf (collection c) ->
    exists c',
      append_all calls c = inr c' /\
      dict_wf (collection c') /\
      (exists more,
          dict_keys (collection c') = dict_keys (collection c) ++ more) /\
      (forall key leaflets,
          dict_get (collection c) key = Some leaflets ->
          exists more,
            dict_get (collection c') key = Some (leaflets ++ more)).
Proof.
  intros calls c W. destruct (append_all_total calls c) as [c' A].
  exists c'. split; [exact A|]. split; [exact (append_all_wf _ _ _ A W)|].
  split.
  - rewrite (append_all_keys _ _ _ A). apply keys_after_prefix.
  - intros key ls G. rewrite (append_all_get _ _ _ A key), G. eauto.
Qed.

Lemma X14_witness :
  exists c',
    append_all [(py "ShopB", [scenario_leaflet]); (py "ShopC", [])]
      scenario_collection = inr c' /\
    dict_keys (collection c') = [py "ShopA"; py "ShopB"; py "ShopC"].
Proof.
  destruct (X14_appends_only_add
              [(py "ShopB", [scenario_leaflet]); (py "ShopC", [])]
              scenario_collection scenario_collection_wf)
    as (c' & A & _).
  exists c'. split; [exact A|].
  vm_compute in A. injection A as <-. reflexivity.
Defined.

(** X15. [append] with no Records leaves a collection that has the key as
    it is, and gives a new key the empty sequence, in the last place. *)
Theorem X15_append_nothing :
  forall (c : LeafletCollection) (key : str),
    append c key []
    = inr (match dict_get (collection c) key with
           | Some _ => c
           | None => {| collection := collection c ++ [(key, [])] |}
           end).
Proof.
  intros [d] key. rewrite append_eq. simpl.
  destruct (dict_get d key) as [l|] eqn:G.
  - rewrite app_nil_r. now rewrite dict_set_same.
  - simpl. now rewrite dict_set_absent.
Qed.

(** X16. [append] calls for two different keys can be swapped: every key
    holds the same Records either way, and the two collections are equal
    where one of the two keys was there before (else the two new keys
    come in the order of the calls). *)
Theorem X16_append_commutes :
  forall (c : LeafletCollection) (k1 k2 : str) (a b : list Leaflet),
    k1 <> k2 ->
    exists c12 c21,
      rbind (append c k1 a) (fun c' => append c' k2 b) = inr c12 /\
      rbind (append c k2 b) (fun c' => append c' k1 a) = inr c21 /\
      (forall key,
          dict_get (collection c12) key = dict_get (collection c21) key) /\
      (dict_contains (collection c) k1 || dict_contains (collection c) k2
       = true -> c12 = c21).
Proof.
  intros c k1 k2 a b N.
  rewrite (append_eq c k1 a), (append_eq c k2 b). simpl.
  rewrite !append_eq. simpl.
  rewrite !dict_get_set_other by congruence.
  eexists _, _. split; [reflexivity|]. split; [reflexivity|]. simpl. split.
  - intros key.
    destruct (str_eq_dec key k1) as [->|N1].
    + rewrite dict_get_set_other, !dict_get_set_same by assumption.
      reflexivity.
    + destruct (str_eq_dec key k2) as [->|N2].
      * rewrite dict_get_set_same, dict_get_set_other, dict_get_set_same
          by assumption.
        reflexivity.
      * now rewrite !dict_get_set_other by assumption.
  - intros H. f_equal. now apply dict_set_comm.
Qed.

Lemma X16_witness :
  rbind (append scenario_collection (py "ShopB") [scenario_leaflet])
        (fun c' => append c' (py "ShopC") [])
  = rbind (append scenario_collection (py "ShopC") [])
          (fun c' => append c' (py "ShopB") [scenario_leaflet]).
Proof.
  destruct (X16_append_commutes scenario_collection (py "ShopB") (py "ShopC")
              [scenario_leaflet] [])
    as (c12 & c21 & -> & -> & _ & E).
  - discriminate.
  - f_equal. apply E. reflexivity.
Defined.

(** ** [__serialize] and [to_dict], continued *)

Lemma serialize_item_get d key :
  dict_get (map serialize_item d) key
  = option_map (map to_dict) (dict_get d key).
Proof.
  induction d as [|[k ls] d IH]; simpl; auto.
  destruct (str_eq_dec key k); auto.
Qed.

Lemma serialize_item_set d key ls :
  map serialize_item (dict_set d key ls)
  = dict_set (map serialize_item d) key (map to_dict ls).
Proof.
  induction d as [|[k ls'] d IH]; simpl; auto.
  destruct (str_eq_dec key k); simpl; auto. now rewrite IH.
Qed.

(** X17. Serializing after an [append] is the serialization from before
    with the converted Records added under the key: [serialize] carries
    [append] over to the serialized dict. *)
Theorem X17_serialize_after_append :
  forall (c : LeafletCollection) (key : str) (data : list Leaflet),
    dict_wf (collection c) ->
    rbind (append c key data) serialize
    = inr (dict_set (map serialize_item (collection c)) key
             (match dict_get (map serialize_item (collection c)) key with
              | Some l => l ++ map to_dict data
              | None => map to_dict data
              end)).
Proof.
  intros c key data W. rewrite append_eq. simpl. unfold serialize. simpl.
  rewrite (serialize_items_map _ []); [|simpl; now apply dict_wf_set].
  simpl. rewrite serialize_item_set, serialize_item_get.
  destruct (dict_get (collection c) key); simpl; now rewrite ?map_app.
Qed.

Lemma X17_witness :
  rbind (append scenario_collection (py "ShopB") [scenario_leaflet]) serialize
  = inr [ (py "ShopA", [to_dict scenario_leaflet]);
          (py "ShopB", [to_dict scenario_leaflet]) ].
Proof.
  apply (X17_serialize_after_append scenario_collection (py "ShopB")
           [scenario_leaflet] scenario_collection_wf).
Defined.

Lemma to_dict_inj l1 l2 : to_dict l1 = to_dict l2 -> l1 = l2.
Proof.
  destruct l1, l2. unfold to_dict. simpl. intros H.
  injection H as -> -> -> -> -> ->. reflexivity.
Qed.

Lemma map_to_dict_inj :
  forall ls1 ls2, map to_dict ls1 = map to_dict ls2 -> ls1 = ls2.
Proof.
  induction ls1 as [|l1 ls1 IH]; intros [|l2 ls2] H; simpl in H;
    try discriminate; auto.
  remember (to_dict l1) as d1 eqn:E1. remember (to_dict l2) as d2 eqn:E2.
  injection H as H1 H2. subst. apply to_dict_inj in H1. f_equal; auto.
Qed.

(** X18. [serialize] loses nothing: two collections with the same
    serialization are the same collection (the same keys in the same
    order, with the same Records, [parsed_time] included). *)
Theorem X18_serialize_injective :
  forall c1 c2 : LeafletCollection,
    dict_wf (collection c1) -> dict_wf (collection c2) ->
    serialize c1 = serialize c2 -> c1 = c2.
Proof.
  intros [d1] [d2] W1 W2. unfold serialize. simpl in *.
  pose proof (serialize_items_map d1 [] W1) as E1.
  pose proof (serialize_items_map d2 [] W2) as E2.
  simpl in E1, E2. rewrite E1, E2. clear E1 E2. intros [= H]. f_equal. revert d2 H W1 W2.
  induction d1 as [|[k1 ls1] d1 IH]; intros [|[k2 ls2] d2] H W1 W2;
    simpl in H; try discriminate; auto.
  unfold serialize_item in H at 1 2. simpl in H.
  injection H as -> H1 H2. apply map_to_dict_inj in H1. subst.
  f_equal. apply IH; auto.
  - now inversion W1.
  - now inversion W2.
Qed.

Lemma X18_witness :
  {| collection := [ (py "ShopA", [] ++ [scenario_leaflet]);
                     (py "ShopB", []) ] |}
  = scenario_collection.
Proof.
  apply (X18_serialize_injective
           {| collection := [ (py "ShopA", [] ++ [scenario_leaflet]);
                              (py "ShopB", []) ] |}
           scenario_collection scenario_collection_wf scenario_collection_wf).
  reflexivity.
Defined.

(** ** The setters of [Leaflet] *)

(** X19. Each setter changes the entry of [to_dict] under its own key and
    no other; no setter changes [parsed_time]. *)
Theorem X19_setters_and_to_dict :
  forall (l : Leaflet) (v : str),
    to_dict (set_title l v) = dict_set (to_dict l) (py "title") (PyStr v) /\
    to_dict (set_thumbnail l v)
    = dict_set (to_dict l) (py "thumbnail") (PyStr v) /\
    to_dict (set_shop_name l v)
    = dict_set (to_dict l) (py "shop_name") (PyStr v) /\
    to_dict (set_valid_from l v)
    = dict_set (to_dict l) (py "valid_from") (PyStr v) /\
    to_dict (set_valid_to l v)
    = dict_set (to_dict l) (py "valid_to") (PyStr v) /\
    get_parsed_time (set_title l v) = get_parsed_time l /\
    get_parsed_time (set_thumbnail l v) = get_parsed_time l /\
    get_parsed_time (set_shop_name l v) = get_parsed_time l /\
    get_parsed_time (set_valid_from l v) = get_parsed_time l /\
    get_parsed_time (set_valid_to l v) = get_parsed_time l.
Proof.
  intros [t th sh vf vt pt] v. repeat split.
Qed.

(** ** [ProspektMaschineScraper.scrape] *)

(** X20. Where a retailer's Listing Scraper raises, [scrape] raises that
    exception and leaves the file system as it was, whatever writing would
    do: nothing is handed to the sink, also not the Records of the
    retailers scraped before. *)
Theorem X20_scrape_failure_writes_nothing :
  forall (Disk IOError : Type)
         (write_json : dict (list (dict pyval)) -> str -> Disk
                       -> option IOError * Disk)
         (w : World) (d : Disk)
         (webpage : Element) (links1 links2 : list Element)
         (link : Element) (c1 : LeafletCollection) (w1 : World) (e : exn),
    web w (requests w) (base_url ++ py "/hypermarkte/") = inr webpage ->
    select webpage HYPERMARKET_LINK_SELECTOR = links1 ++ link :: links2 ->
    scrape_links links1 new_collection (later w 1 0) = inr (c1, w1) ->
    scrape_leaflets (link_url link) (link_name link) w1 = inl e ->
    scrape write_json w d = (Some (Scraping IOError e), None, d).
Proof.
  intros Disk IOError write_json w d webpage links1 links2 link c1 w1 e
         G S L F.
  unfold scrape.
  now rewrite (scrape_all_leaflets_first_failure
                 w webpage links1 links2 link c1 w1 e G S L F).
Qed.

(** The web goes down after the page of ShopA: ShopB fails, and the Record
    of ShopA is not written. *)
Lemma X20_witness :
  scrape memory_write (offline_after 2) []
  = (Some (Scraping Empty_set RequestException), None, []).
Proof.
  eapply (X20_scrape_failure_writes_nothing _ _ memory_write (offline_after 2) []
            _ [leaf (py " ShopA ") [(py "href", py "/a/")]]).
  - reflexivity.
  - reflexivity.
  - vm_compute. reflexivity.
  - reflexivity.
Defined.

(** X21. Where the scraping returns a collection, [scrape] hands the sink
    one document, under the name [leaflets.json]: the keys of the
    collection in their order, each with its Records in their order,
    converted by [to_dict]. What it raises and what becomes of the file
    system is what the sink makes of this one call. *)
Theorem X21_scrape_writes_the_collection :
  forall (Disk IOError : Type)
         (write_json : dict (list (dict pyval)) -> str -> Disk
                       -> option IOError * Disk)
         (w : World) (d : Disk) (c : LeafletCollection) (w' : World),
    scrape_all_leaflets w = inr (c, w') ->
    scrape write_json w d
    = (option_map (Saving (IOError := IOError))
         (fst (write_json (map serialize_item (collection c))
                 (py "leaflets.json") d)),
       Some w',
       snd (write_json (map serialize_item (collection c))
              (py "leaflets.json") d)).
Proof.
  intros Disk IOError write_json w d c w' H. unfold scrape. rewrite H.
  destruct (scrape_all_leaflets_visits w c w' H) as (webpage & vs & _ & _ & A).
  assert (W : dict_wf (collection c))
    by (apply (append_all_wf _ _ _ A); constructor).
  unfold get_json, serialize, save_json.
  pose proof (serialize_items_map (collection c) [] W) as E.
  simpl in E. rewrite E.
  destruct (write_json (map serialize_item (collection c))
              (py "leaflets.json") d) as [[e|] d']; reflexivity.
Qed.

Lemma X21_witness :
  exists w',
    scrape memory_write scenario_world []
    = (None, Some w',
       [ (py "leaflets.json",
          [ (py "ShopA", [to_dict scenario_leaflet]); (py "ShopB", []) ]) ]).
Proof.
  assert (E : {w' | scrape_all_leaflets scenario_world
                    = inr (scenario_collection, w')}).
  { eexists. vm_compute. reflexivity. }
  destruct E as [w' E]. exists w'.
  rewrite (X21_scrape_writes_the_collection _ _ memory_write scenario_world []
             scenario_collection w' E).
  reflexivity.
Defined.
